(** * webmafia/lru: the LRU cache on flat parallel slices

    A shallow embedding of the engine of [lru.go]; the methods of
    [threadsafe.go] call the same engine between a lock and its deferred
    unlock.  The three slices [keys], [vals] and [lastUse] are lists;
    [uint64] ticks are integers with the wrap-around written out; a Go
    panic (index out of range, [make] with a negative capacity) or an
    execution that never returns is [None]. *)

From Stdlib Require Import ZArith Lia.
From stdpp Require Import base option list.

Local Open Scope Z_scope.

(** ** Machine integers *)

Definition MaxUint64 : Z := 2 ^ 64 - 1.

(** Arithmetic on [uint64] wraps modulo [2^64]. *)
Definition u64 (z : Z) : Z := z mod 2 ^ 64.

(** ** The engine *)

Section Engine.
Context {K V : Type} `{EqDecision K}.
(** Go's zero values of the key and value types. *)
Context (zeroK : K) (zeroV : V).
(** [growslice oldcap newlen]: the capacity the Go runtime picks when
    the built-in [append] outgrows a slice (runtime, not part of this
    repository).  It is consulted only when [len(c.keys) = cap(c.keys)]
    at the time of the append, which needs a cache of capacity 0. *)
Context (growslice : Z → Z → Z).

(** [type lru struct { keys; vals; lastUse; tick; evicted }].
    [kcap] is [cap(c.keys)], the only slice capacity the code reads.
    [evicted] says whether the callback is non-nil, and [notified]
    records, in order, the calls made to it. *)
Record lru := Lru {
  keys : list K;
  vals : list V;
  lastUse : list Z;
  tick : Z;
  kcap : Z;
  evicted : bool;
  notified : list (K * V)
}.

Definition set_keys (ks : list K) (cp : Z) (c : lru) : lru :=
  Lru ks (vals c) (lastUse c) (tick c) cp (evicted c) (notified c).
Definition set_vals (vs : list V) (c : lru) : lru :=
  Lru (keys c) vs (lastUse c) (tick c) (kcap c) (evicted c) (notified c).
Definition set_lastUse (ts : list Z) (c : lru) : lru :=
  Lru (keys c) (vals c) ts (tick c) (kcap c) (evicted c) (notified c).
Definition set_tick (t : Z) (c : lru) : lru :=
  Lru (keys c) (vals c) (lastUse c) t (kcap c) (evicted c) (notified c).
Definition set_notified (n : list (K * V)) (c : lru) : lru :=
  Lru (keys c) (vals c) (lastUse c) (tick c) (kcap c) (evicted c) n.

(** [s[i] = x]; out of range panics. *)
Definition store {A} (i : nat) (x : A) (l : list A) : option (list A) :=
  if decide (i < length l)%nat then Some (<[i:=x]> l) else None.

(** [func New(capacity int, evicted ...func(key K, val V))];
    [make([]K, 0, capacity)] panics on a negative capacity. *)
Definition New (capacity : Z) (callback : bool) : option lru :=
  if capacity <? 0 then None
  else Some (Lru [] [] [] 0 capacity callback []).

Definition Len (c : lru) : Z := Z.of_nat (length (keys c)).

(** [Cap] returns [len(c.keys)] as well. *)
Definition Cap (c : lru) : Z := Z.of_nat (length (keys c)).

(** [Reset]: clear, truncate to length 0 (capacity kept), [tick = 0]. *)
Definition Reset (c : lru) : lru :=
  Lru [] [] [] 0 (kcap c) (evicted c) (notified c).

(** The scan [for i := range c.keys { if c.keys[i] == key ... }]
    shared by [Has], [Get], [Replace] and [Remove]: first match. *)
Definition scan (key : K) (c : lru) : option nat :=
  fst <$> list_find (λ k, k = key) (keys c).

Definition Has (key : K) (c : lru) : bool :=
  match scan key c with Some _ => true | None => false end.

Definition oldestTick (c : lru) : Z := u64 (tick c - Len c).

(** [find(tick)]: first slot whose [lastUse] equals [tick]. *)
Definition find (t : Z) (c : lru) : option nat :=
  fst <$> list_find (λ x, x = t) (lastUse c).

Definition evict (key : K) (val : V) (c : lru) : lru :=
  if evicted c then set_notified (notified c ++ [(key, val)]) c else c.

(** [remove(idx)]: swap with the last slot, truncate, notify.
    [end] is [len(c.keys) - 1] for all three slices. *)
Definition remove (idx : nat) (c : lru) : option lru :=
  let end_ := (length (keys c) - 1)%nat in
  key ← keys c !! idx; kend ← keys c !! end_;
  val ← vals c !! idx; vend ← vals c !! end_;
  ti ← lastUse c !! idx; te ← lastUse c !! end_;
  let ks := <[end_:=zeroK]> (<[idx:=kend]> (keys c)) in
  let vs := <[end_:=zeroV]> (<[idx:=vend]> (vals c)) in
  let ts := <[end_:=ti]> (<[idx:=te]> (lastUse c)) in
  Some (evict key val
          (set_lastUse (take end_ ts)
             (set_vals (take end_ vs)
                (set_keys (take end_ ks) (kcap c) c)))).

(** [repair]: [lastUse[i] = uint64(i)], [tick = uint64(c.Len())]. *)
Definition repair (c : lru) : lru :=
  set_tick (Len c)
    (set_lastUse (Z.of_nat <$> seq 0 (length (lastUse c))) c).

(** The loop of [preventTickOverflow]: [None] when some
    [lastUse[i] < tick] is met (the code then calls [repair], which
    overwrites every slot, and returns), else the shifted ticks. *)
Fixpoint rebase (t : Z) (l : list Z) : option (list Z) :=
  match l with
  | [] => Some []
  | x :: l' =>
      if x <? t then None else (u64 (x + t) ::.) <$> rebase t l'
  end.

Definition preventTickOverflow (c : lru) : lru :=
  if tick c =? MaxUint64 then
    match rebase (oldestTick c) (lastUse c) with
    | None => repair c
    | Some ts => set_tick (Len c) (set_lastUse ts c)
    end
  else c.

Definition nextTick (c : lru) : Z * lru :=
  let c := preventTickOverflow c in
  (tick c, set_tick (u64 (tick c + 1)) c).

(** [removeOldest] calls itself after [repair]; [fuel] bounds the
    depth of that recursion, and [None] at depth 0 stands for a call
    that never returns. *)
Fixpoint removeOldest_rec (fuel : nat) (c : lru) : option lru :=
  match fuel with
  | O => None
  | S fuel =>
      if decide (length (keys c) = 0)%nat then Some c
      else match find (oldestTick c) c with
           | Some idx => remove idx c
           | None => removeOldest_rec fuel (repair c)
           end
  end.

(** Two levels are all the recursion can use: see
    [removeOldest_rec_fuel]. *)
Definition removeOldest (c : lru) : option lru := removeOldest_rec 2 c.

(** The built-in [append] on [c.keys]: the capacity grows only when
    the slice is full. *)
Definition push_key (key : K) (c : lru) : lru :=
  set_keys (keys c ++ [key])
    (if kcap c <? Len c + 1 then growslice (kcap c) (Len c + 1)
     else kcap c) c.

Definition append (key : K) (val : V) (c : lru) : option lru :=
  c ← (if Len c >=? kcap c then removeOldest c else Some c);
  let c := push_key key c in
  let c := set_vals (vals c ++ [val]) c in
  let '(t, c) := nextTick c in
  Some (set_lastUse (lastUse c ++ [t]) c).

Definition Get (key : K) (c : lru) : option (V * bool * lru) :=
  match scan key c with
  | Some i =>
      let '(t, c) := nextTick c in
      ts ← store i t (lastUse c);
      val ← vals c !! i;
      Some (val, true, set_lastUse ts c)
  | None => Some (zeroV, false, c)
  end.

(** The producer returns Go's pair [(V, error)]; [None] is [nil]. *)
Definition GetOrSet {E} (key : K) (setter : K → V * option E) (c : lru)
    : option (V * option E * lru) :=
  '(val, ok, c) ← Get key c;
  if ok : bool then Some (val, None, c)
  else
    let '(val, err) := setter key in
    match err with
    | None => c ← append key val c; Some (val, None, c)
    | Some _ => Some (val, err, c)
    end.

Definition Set_ (key : K) (val : V) (c : lru) : option (bool * lru) :=
  if Has key c then Some (false, c)
  else c ← append key val c; Some (true, c).

Definition Replace (key : K) (val : V) (c : lru) : option (bool * lru) :=
  match scan key c with
  | Some i =>
      old ← vals c !! i;
      let c := set_vals (<[i:=val]> (vals c)) c in
      let '(t, c) := nextTick c in
      ts ← store i t (lastUse c);
      Some (true, evict key old (set_lastUse ts c))
  | None => c ← append key val c; Some (false, c)
  end.

Definition Remove (key : K) (c : lru) : option (bool * lru) :=
  match scan key c with
  | Some i => c ← remove i c; Some (true, c)
  | None => Some (false, c)
  end.

(** The loop of [RemoveAll]: [c.evict(c.keys[i], c.vals[i])]. *)
Fixpoint evictAll (i : nat) (ks : list K) (c : lru) : option lru :=
  match ks with
  | [] => Some c
  | k :: ks => v ← vals c !! i; evictAll (S i) ks (evict k v c)
  end.

Definition RemoveAll (c : lru) : option lru :=
  c ← evictAll 0 (keys c) c; Some (Reset c).

(** The loop [for capacity < c.Len() { c.removeOldest() }] of
    [Resize].  Every [removeOldest] that returns on a non-empty cache
    shortens [keys] by one, so [length (keys c)] rounds are all the
    loop can use; it spins forever on a negative capacity. *)
Fixpoint shrink (fuel : nat) (capacity : Z) (c : lru) : option lru :=
  if capacity <? Len c then
    match fuel with
    | O => None
    | S fuel => c ← removeOldest c; shrink fuel capacity c
    end
  else Some c.

(** [Resize]: the three slices are copied into fresh ones of the new
    capacity, [Reset] runs on the old ones (and on [tick]), and the
    copies are installed. *)
Definition Resize (capacity : Z) (c : lru) : option lru :=
  if kcap c =? capacity then Some c
  else
    c ← shrink (length (keys c)) capacity c;
    if capacity <? 0 then None
    else
      let keys' := keys c in
      let vals' := vals c in
      let lastUse' := lastUse c in
      let c := Reset c in
      Some (set_lastUse lastUse' (set_vals vals' (set_keys keys' capacity c))).

(** The iterators, as the list of the pairs they yield to a consumer
    that never stops them. *)
Definition Iterate (c : lru) : option (list (K * V)) :=
  mapM (λ i, k ← keys c !! i; v ← vals c !! i; Some (k, v))
       (seq 0 (length (keys c))).

(** The walk shared by [IterateAsc] ([tick++]) and [IterateDesc]
    ([tick--]): [n] rounds of the [for range c.keys] loop. *)
Fixpoint walk (next : Z → Z) (n : nat) (t : Z) (c : lru)
    : option (list (K * V)) :=
  match n with
  | O => Some []
  | S n =>
      match find t c with
      | None => Some []
      | Some idx =>
          k ← keys c !! idx; v ← vals c !! idx;
          rest ← walk next n (next t) c;
          Some ((k, v) :: rest)
      end
  end.

Definition IterateAsc (c : lru) : option (list (K * V)) :=
  walk (λ t, u64 (t + 1)) (length (keys c)) (oldestTick c) c.

Definition IterateDesc (c : lru) : option (list (K * V)) :=
  walk (λ t, u64 (t - 1)) (length (keys c)) (u64 (tick c - 1)) c.

(** ** Sequences of calls *)

(** A call of one of the public methods, results dropped. *)
Inductive op {E : Type} :=
| OpHas (key : K)
| OpGet (key : K)
| OpGetOrSet (key : K) (setter : K → V * option E)
| OpSet (key : K) (val : V)
| OpReplace (key : K) (val : V)
| OpRemove (key : K)
| OpRemoveAll
| OpReset
| OpResize (capacity : Z).

Definition step {E} (o : @op E) (c : lru) : option lru :=
  match o with
  | OpHas key => let _ := Has key c in Some c
  | OpGet key => snd <$> Get key c
  | OpGetOrSet key setter => snd <$> GetOrSet key setter c
  | OpSet key val => snd <$> Set_ key val c
  | OpReplace key val => snd <$> Replace key val c
  | OpRemove key => snd <$> Remove key c
  | OpRemoveAll => RemoveAll c
  | OpReset => Some (Reset c)
  | OpResize capacity => Resize capacity c
  end.

Fixpoint run {E} (os : list (@op E)) (c : lru) : option lru :=
  match os with
  | [] => Some c
  | o :: os => c ← step o c; run os c
  end.

(** The keys the ascending iterator yields. *)
Definition ascKeys (c : lru) : option (list K) :=
  (λ l : list (K * V), l.*1) <$> IterateAsc c.

Definition descKeys (c : lru) : option (list K) :=
  (λ l : list (K * V), l.*1) <$> IterateDesc c.

(** ** What the documentation describes

    The definitions below follow the words of the description of the
    cache, not the code: they are what the code is compared with. *)

(** The live keys in the order of their most recent touch, least
    recently touched first, for a cache of capacity [rcap]. *)
Record recency := Recency { rcap : Z; order : list K }.

Definition untouch (key : K) (r : list K) : list K :=
  filter (λ k, k ≠ key) r.

(** A touch makes the key the most recent one. *)
Definition touch (key : K) (r : recency) : recency :=
  Recency (rcap r) (untouch key (order r) ++ [key]).

(** An insertion into a full cache first drops the least recently
    touched key. *)
Definition insert_recent (key : K) (r : recency) : recency :=
  Recency (rcap r)
    ((if Z.of_nat (length (order r)) >=? rcap r then tail (order r)
      else order r) ++ [key]).

Definition touch_step {E} (o : @op E) (r : recency) : recency :=
  let present key := bool_decide (key ∈ order r) in
  match o with
  | OpHas _ => r
  | OpGet key => if present key then touch key r else r
  | OpGetOrSet key setter =>
      if present key then touch key r
      else match snd (setter key) with
           | None => insert_recent key r
           | Some _ => r
           end
  | OpSet key _ => if present key then r else insert_recent key r
  | OpReplace key _ =>
      if present key then touch key r else insert_recent key r
  | OpRemove key => Recency (rcap r) (untouch key (order r))
  | OpRemoveAll | OpReset => Recency (rcap r) []
  | OpResize capacity =>
      Recency capacity
        (drop (length (order r) - Z.to_nat capacity) (order r))
  end.

Definition touch_order {E} (capacity : Z) (os : list (@op E)) : list K :=
  order (foldl (λ r o, touch_step o r) (Recency capacity []) os).

(** The live entries whose recency tick is smallest: the slots no
    other slot has a smaller [lastUse] than. *)
Definition smallest_tick (i : nat) (c : lru) : Prop :=
  ∃ t, lastUse c !! i = Some t ∧ ∀ j u, lastUse c !! j = Some u → t ≤ u.

(** The calls that may insert: [Set], [Replace] and [GetOrSet]. *)
Definition inserting {E} (o : @op E) : Prop :=
  match o with
  | OpSet _ _ | OpReplace _ _ | OpGetOrSet _ _ => True
  | _ => False
  end.

(** The call [o] inserts the absent key [key] with the value [val]. *)
Definition inserts {E} (o : @op E) (key : K) (val : V) : Prop :=
  match o with
  | OpSet k v | OpReplace k v => k = key ∧ v = val
  | OpGetOrSet k setter => k = key ∧ setter key = (val, None)
  | _ => False
  end.

(** [Resize] is given a positive capacity. *)
Definition positive_resize {E} (o : @op E) : Prop :=
  match o with
  | OpResize capacity => 0 < capacity
  | _ => True
  end.

(** Any call but [Resize]. *)
Definition keeps_capacity {E} (o : @op E) : Prop :=
  match o with
  | OpResize _ => False
  | _ => True
  end.

(** Every live slot's recency tick is below the clock. *)
Definition ticks_below_clock (c : lru) : Prop :=
  ∀ i t, lastUse c !! i = Some t → t < tick c.

(** The slots of the cache: key, value and recency tick. *)
Definition slots (c : lru) : list (K * V * Z) :=
  zip (zip (keys c) (vals c)) (lastUse c).

(** The live entries, in storage order. *)
Definition entries (c : lru) : list (K * V) := zip (keys c) (vals c).

(** The call that took [c] to [c'] reported the entries [ev], in that
    order, to the callback, if the cache has one. *)
Definition reports (c c' : lru) (ev : list (K * V)) : Prop :=
  evicted c' = evicted c ∧
  notified c' = notified c ++ (if evicted c then ev else []).

(** Nothing is lost from [c] to [c'] but the reported entries [ev]:
    every reported entry was in [c], and every entry of [c] is still
    in [c'] or was reported. *)
Definition accounted (c c' : lru) (ev : list (K * V)) : Prop :=
  reports c c' ev ∧
  (∀ kv, kv ∈ ev → kv ∈ entries c) ∧
  (∀ kv, kv ∈ entries c → kv ∈ entries c' ∨ kv ∈ ev).

(** Entries stamped with the consecutive ticks [base], [base + 1], ... *)
Definition stamped (base : Z) (r : list (K * V)) : list (K * V * Z) :=
  imap (λ i kv, (kv, base + Z.of_nat i)) r.

(** The three slices are position-aligned. *)
Definition aligned (c : lru) : Prop :=
  length (vals c) = length (keys c) ∧ length (lastUse c) = length (keys c).

(** Aligned, within a positive capacity. *)
Definition wf (c : lru) : Prop :=
  aligned c ∧ Len c ≤ kcap c ∧ 0 < kcap c.

(** A call that touches or removes no entry but the least recently
    touched one ([r] is the recency order before the call), and is not
    a [Resize]. *)
Definition gentle {E} (o : @op E) (r : list K) : Prop :=
  match o with
  | OpHas _ | OpSet _ _ | OpRemoveAll | OpReset => True
  | OpGet key | OpGetOrSet key _ | OpReplace key _ | OpRemove key =>
      key ∈ r → head r = Some key
  | OpResize _ => False
  end.

Fixpoint gentle_run {E} (os : list (@op E)) (r : recency) : Prop :=
  match os with
  | [] => True
  | o :: os => gentle o (order r) ∧ gentle_run os (touch_step o r)
  end.

(** The recency window: the cache holds the entries [r], pairwise
    distinct keys, in some storage order, and from the least to the most
    recently touched they carry the ticks [tick - len], ...,
    [tick - 1]. *)
Definition ordered (c : lru) (r : list (K * V)) : Prop :=
  aligned c ∧ NoDup r.*1 ∧ Len c ≤ tick c < MaxUint64 ∧
  slots c ≡ₚ stamped (tick c - Len c) r.

(** The cache [c] holds the keys of the recency state [ρ] in the
    recency window, within the same positive capacity. *)
Definition stands_for (c : lru) (ρ : recency) : Prop :=
  ∃ r, ordered c r ∧ r.*1 = order ρ ∧
       rcap ρ = kcap c ∧ 0 < kcap c ∧ Len c ≤ kcap c.

End Engine.

Arguments lru : clear implicits.
Arguments op : clear implicits.
Arguments recency : clear implicits.
Arguments nextTick : simpl never.
Arguments evict : simpl never.
Arguments push_key : simpl never.

(** ** Caches for the examples: [int] keys, as in the package's own
    example; appending to a full slice of one-word elements makes the
    Go runtime allocate exactly the length asked for when the old
    capacity is 0. *)

Definition growint (oldcap newlen : Z) : Z :=
  if oldcap =? 0 then newlen else 2 * oldcap.

(** Calls on a cache with [int] keys and values; [0] is the zero value
    of both. *)
Definition stepInt : op Z Z unit → lru Z Z → option (lru Z Z) :=
  step 0 0 growint.
Definition runInt : list (op Z Z unit) → lru Z Z → option (lru Z Z) :=
  run 0 0 growint.

(** The package's example: [New[int, struct{}](8, ...)] and
    [cache.Replace(i, struct{}{})] for [i] from 1 to 10. *)
Definition example_calls : list (op Z unit unit) :=
  (λ i, OpReplace i ()) <$> [1; 2; 3; 4; 5; 6; 7; 8; 9; 10].

(** Keys 1 to 5 inserted in that order, then [Resize(3)]. *)
Definition fill5 : list (op Z Z unit) :=
  [OpSet 1 10; OpSet 2 20; OpSet 3 30; OpSet 4 40; OpSet 5 50].

(** Two keys inserted, then the first one replaced twice. *)
Definition replace_first_twice : list (op Z Z unit) :=
  [OpSet 1 10; OpSet 2 20; OpReplace 1 11; OpReplace 1 12].

(** Two keys inserted, then the newer one read. *)
Definition read_newest : list (op Z Z unit) :=
  [OpSet 1 10; OpSet 2 20; OpGet 2].

(** Four keys inserted, the second one removed, one more inserted; the
    next insertion finds the cache full. *)
Definition remove_second : list (op Z Z unit) :=
  [OpSet 1 10; OpSet 2 20; OpSet 3 30; OpSet 4 40; OpRemove 2; OpSet 5 50].

(** A producer that fails and still returns a value. *)
Definition failing_producer (key : Z) : Z * option unit := (5, Some ()).

(** * Properties of the engine *)

(** A key is not in an explicit list of keys it differs from. *)
Ltac absent :=
  simpl;
  let Hin := fresh "Hin" in
  intros Hin;
  repeat (apply elem_of_cons in Hin as [Hin|Hin]; [congruence|]);
  by apply elem_of_nil in Hin.

Section EngineTheory.
Context {K V : Type} `{EqDecision K}.
Context (zeroK : K) (zeroV : V) (growslice : Z → Z → Z).

Local Abbreviation lru := (lru K V).
Local Abbreviation remove := (remove zeroK zeroV).
Local Abbreviation removeOldest_rec := (removeOldest_rec zeroK zeroV).
Local Abbreviation removeOldest := (removeOldest zeroK zeroV).
Local Abbreviation append := (append zeroK zeroV growslice).
Local Abbreviation Get := (Get zeroV).
Local Abbreviation GetOrSet := (GetOrSet zeroK zeroV growslice).
Local Abbreviation Set_ := (Set_ zeroK zeroV growslice).
Local Abbreviation Replace := (Replace zeroK zeroV growslice).
Local Abbreviation Remove := (Remove zeroK zeroV).
Local Abbreviation shrink := (shrink zeroK zeroV).
Local Abbreviation Resize := (Resize zeroK zeroV).
Local Abbreviation step := (step zeroK zeroV growslice).
Local Abbreviation run := (run zeroK zeroV growslice).

Implicit Types (c : lru) (key : K) (val : V) (t : Z) (i idx n : nat).

Lemma u64_small z : 0 ≤ z < 2 ^ 64 → u64 z = z.
Proof. intros. unfold u64. by apply Z.mod_small. Qed.

Lemma scan_Some key c i :
  scan key c = Some i → keys c !! i = Some key.
Proof.
  unfold scan. intros Hs. apply fmap_Some in Hs as [[j k] [Hf ->]].
  apply list_find_Some in Hf as (Hl & -> & _). done.
Qed.

Lemma scan_None key c : scan key c = None ↔ key ∉ keys c.
Proof.
  unfold scan. rewrite fmap_None, list_find_None, Forall_forall.
  split; intros Hn.
  - intros Hin. by apply (Hn key).
  - intros k Hin ->. done.
Qed.

Lemma find_Some t c i :
  find t c = Some i → lastUse c !! i = Some t.
Proof.
  unfold find. intros Hs. apply fmap_Some in Hs as [[j k] [Hf ->]].
  apply list_find_Some in Hf as (Hl & -> & _). done.
Qed.

Lemma find_None t c : find t c = None ↔ t ∉ lastUse c.
Proof.
  unfold find. rewrite fmap_None, list_find_None, Forall_forall.
  split; intros Hn.
  - intros Hin. by apply (Hn t).
  - intros k Hin ->. done.
Qed.

Lemma evict_fields key val c :
  keys (evict key val c) = keys c ∧ vals (evict key val c) = vals c ∧
  lastUse (evict key val c) = lastUse c ∧ tick (evict key val c) = tick c ∧
  kcap (evict key val c) = kcap c ∧ evicted (evict key val c) = evicted c.
Proof. unfold evict. by destruct (evicted c) eqn:Hcb. Qed.

(** [remove] returns on every slot of an aligned cache, and takes
    exactly one entry away. *)
Lemma remove_aligned idx c :
  aligned c → (idx < length (keys c))%nat →
  ∃ c', remove idx c = Some c' ∧ aligned c' ∧
        length (keys c') = (length (keys c) - 1)%nat ∧
        kcap c' = kcap c ∧ tick c' = tick c.
Proof.
  intros [Hv Ht] Hi. unfold remove.
  destruct (lookup_lt_is_Some_2 (keys c) idx) as [key Hk]; [done|].
  destruct (lookup_lt_is_Some_2 (keys c) (length (keys c) - 1)) as [ke Hke]; [lia|].
  destruct (lookup_lt_is_Some_2 (vals c) idx) as [val Hva]; [lia|].
  destruct (lookup_lt_is_Some_2 (vals c) (length (keys c) - 1)) as [ve Hve]; [lia|].
  destruct (lookup_lt_is_Some_2 (lastUse c) idx) as [ti Hti]; [lia|].
  destruct (lookup_lt_is_Some_2 (lastUse c) (length (keys c) - 1)) as [te Hte]; [lia|].
  rewrite Hk, Hke, Hva, Hve, Hti, Hte. simpl.
  eexists. split; [done|].
  destruct (evict_fields key val
    (set_lastUse (take (length (keys c) - 1)
        (<[(length (keys c) - 1)%nat:=ti]> (<[idx:=te]> (lastUse c))))
      (set_vals (take (length (keys c) - 1)
          (<[(length (keys c) - 1)%nat:=zeroV]> (<[idx:=ve]> (vals c))))
        (set_keys (take (length (keys c) - 1)
            (<[(length (keys c) - 1)%nat:=zeroK]> (<[idx:=ke]> (keys c))))
           (kcap c) c)))) as (Ek & Ev & El & Et & Ec & _).
  unfold aligned. rewrite Ek, Ev, El, Et, Ec. simpl.
  rewrite !length_take, !length_insert. lia.
Qed.

Lemma repair_fields c :
  keys (repair c) = keys c ∧ vals (repair c) = vals c ∧
  kcap (repair c) = kcap c ∧ tick (repair c) = Len c ∧
  lastUse (repair c) = Z.of_nat <$> seq 0 (length (lastUse c)).
Proof. done. Qed.

Lemma repair_idem c : repair (repair c) = repair c.
Proof.
  unfold repair, set_tick, set_lastUse, Len. simpl.
  by rewrite length_fmap, length_seq.
Qed.

Lemma oldestTick_repair c : oldestTick (repair c) = 0.
Proof.
  unfold oldestTick, repair, Len. simpl. by rewrite Z.sub_diag.
Qed.

Lemma find_repair c :
  find 0 (repair c) =
  if decide (length (lastUse c) = 0)%nat then None else Some 0%nat.
Proof.
  unfold find, repair. simpl. by destruct (lastUse c).
Qed.

Lemma removeOldest_rec_S n c :
  removeOldest_rec (S n) c =
  if decide (length (keys c) = 0)%nat then Some c
  else match find (oldestTick c) c with
       | Some idx => remove idx c
       | None => removeOldest_rec n (repair c)
       end.
Proof. done. Qed.

(** After [repair] the recursive call of [removeOldest] finds slot 0,
    or finds nothing again and again: more than two levels of
    recursion change nothing. *)
Lemma removeOldest_rec_stuck n c :
  length (keys c) ≠ 0%nat → length (lastUse c) = 0%nat →
  removeOldest_rec n (repair c) = None.
Proof.
  intros Hk Hl. induction n as [|n IH]; [done|].
  rewrite removeOldest_rec_S, decide_False by done.
  rewrite oldestTick_repair, find_repair, decide_True by done.
  by rewrite repair_idem.
Qed.

Lemma removeOldest_rec_repair n c :
  length (keys c) ≠ 0%nat → length (lastUse c) ≠ 0%nat →
  removeOldest_rec (S n) (repair c) = remove 0 (repair c).
Proof.
  intros Hk Hl. rewrite removeOldest_rec_S, decide_False by done.
  by rewrite oldestTick_repair, find_repair, decide_False.
Qed.

Lemma removeOldest_rec_fuel n c :
  (2 ≤ n)%nat → removeOldest_rec n c = removeOldest c.
Proof.
  intros Hn. destruct n as [|[|n]]; [lia|lia|].
  unfold removeOldest. rewrite !(removeOldest_rec_S _ c).
  destruct (decide (length (keys c) = 0)%nat) as [|Hk]; [done|].
  destruct (find (oldestTick c) c); [done|].
  destruct (decide (length (lastUse c) = 0)%nat) as [Hl|Hl].
  - by rewrite !removeOldest_rec_stuck.
  - by rewrite !removeOldest_rec_repair.
Qed.

(** On a non-empty aligned cache [removeOldest] returns and takes
    exactly one entry away. *)
Lemma removeOldest_aligned c :
  aligned c → length (keys c) ≠ 0%nat →
  ∃ c', removeOldest c = Some c' ∧ aligned c' ∧
        length (keys c') = (length (keys c) - 1)%nat ∧ kcap c' = kcap c.
Proof.
  intros Ha Hk. unfold removeOldest.
  rewrite removeOldest_rec_S, decide_False by done.
  destruct (find (oldestTick c) c) as [idx|] eqn:Hf.
  - apply find_Some, lookup_lt_Some in Hf.
    destruct (remove_aligned idx c) as (c' & -> & ? & ? & ? & ?);
      [done|destruct Ha; lia|]. eauto.
  - rewrite removeOldest_rec_repair by (destruct Ha; lia).
    destruct (remove_aligned 0 (repair c)) as (c' & -> & ? & ? & ? & ?).
    + destruct Ha as [Hv Hl]. unfold aligned, repair. simpl.
      by rewrite length_fmap, length_seq.
    + simpl. lia.
    + eauto.
Qed.

(** *** The clock *)

Lemma rebase_length t (l l' : list Z) :
  rebase t l = Some l' → length l' = length l.
Proof.
  revert l'. induction l as [|x l IH]; intros l' Hr; simpl in Hr.
  - by inversion Hr.
  - destruct (x <? t); [done|].
    apply fmap_Some in Hr as (l1 & Hr & ->). simpl. by rewrite (IH l1).
Qed.

Lemma preventTickOverflow_fields c :
  keys (preventTickOverflow c) = keys c ∧
  vals (preventTickOverflow c) = vals c ∧
  kcap (preventTickOverflow c) = kcap c ∧
  evicted (preventTickOverflow c) = evicted c ∧
  notified (preventTickOverflow c) = notified c ∧
  length (lastUse (preventTickOverflow c)) = length (lastUse c).
Proof.
  unfold preventTickOverflow. destruct (tick c =? MaxUint64); [|done].
  destruct (rebase (oldestTick c) (lastUse c)) as [ts|] eqn:Hr; simpl.
  - by rewrite (rebase_length _ _ _ Hr).
  - by rewrite length_fmap, length_seq.
Qed.

Lemma preventTickOverflow_id c :
  tick c ≠ MaxUint64 → preventTickOverflow c = c.
Proof.
  intros Hne. unfold preventTickOverflow.
  by destruct (Z.eqb_spec (tick c) MaxUint64).
Qed.

Lemma nextTick_fields c :
  keys (nextTick c).2 = keys c ∧ vals (nextTick c).2 = vals c ∧
  kcap (nextTick c).2 = kcap c ∧ evicted (nextTick c).2 = evicted c ∧
  notified (nextTick c).2 = notified c ∧
  length (lastUse (nextTick c).2) = length (lastUse c).
Proof. unfold nextTick. simpl. apply preventTickOverflow_fields. Qed.

(** Away from the end of the [uint64] range, [nextTick] returns the
    clock and advances it by one. *)
Lemma nextTick_plain c :
  tick c ≠ MaxUint64 →
  nextTick c = (tick c, set_tick (u64 (tick c + 1)) c).
Proof. intros Hne. unfold nextTick. by rewrite preventTickOverflow_id. Qed.

(** *** The operations return, and keep the cache well formed *)

Lemma append_eq key val c :
  append key val c =
  c1 ← (if Len c >=? kcap c then removeOldest c else Some c);
  let c2 := set_vals (vals c1 ++ [val]) (push_key growslice key c1) in
  Some (set_lastUse (lastUse (nextTick c2).2 ++ [(nextTick c2).1])
          (nextTick c2).2).
Proof.
  unfold append.
  destruct (if Len c >=? kcap c then removeOldest c else Some c)
    as [c1|]; [|done].
  cbn [mbind option_bind].
  by destruct (nextTick (set_vals _ (push_key growslice key c1))).
Qed.

Lemma Get_eq key c :
  Get key c =
  match scan key c with
  | Some i =>
      ts ← store i (nextTick c).1 (lastUse (nextTick c).2);
      val ← vals (nextTick c).2 !! i;
      Some (val, true, set_lastUse ts (nextTick c).2)
  | None => Some (zeroV, false, c)
  end.
Proof. unfold Get. destruct (scan key c); [|done]. by destruct (nextTick c). Qed.

Lemma Replace_eq key val c :
  Replace key val c =
  match scan key c with
  | Some i =>
      old ← vals c !! i;
      let c1 := set_vals (<[i:=val]> (vals c)) c in
      ts ← store i (nextTick c1).1 (lastUse (nextTick c1).2);
      Some (true, evict key old (set_lastUse ts (nextTick c1).2))
  | None => c ← append key val c; Some (false, c)
  end.
Proof.
  unfold Replace. destruct (scan key c); [|done].
  destruct (vals c !! _); [|done]. cbn [mbind option_bind].
  by destruct (nextTick _).
Qed.

Lemma append_wf key val c :
  wf c →
  ∃ c', append key val c = Some c' ∧ wf c' ∧ kcap c' = kcap c.
Proof.
  intros (Ha & Hle & Hpos). rewrite append_eq.
  assert (∃ c1, (if Len c >=? kcap c then removeOldest c else Some c)
                = Some c1 ∧ aligned c1 ∧ Len c1 < kcap c ∧
                kcap c1 = kcap c) as (c1 & -> & Ha1 & Hlt & Hc1).
  { destruct (Z.geb_spec (Len c) (kcap c)) as [Hge|Hlt].
    - destruct (removeOldest_aligned c) as (c1 & -> & ? & Hl1 & ?);
        [done|unfold Len in *; lia|].
      exists c1. unfold Len in *. split_and!; [done|done|lia|done].
    - exists c. split_and!; [done|done|lia|done]. }
  cbn [mbind option_bind]. eexists. split; [done|].
  set (c2 := set_vals (vals c1 ++ [val]) (push_key growslice key c1)).
  destruct (nextTick_fields c2) as (Ek & Ev & Ec & _ & _ & El).
  destruct Ha1 as [Hv1 Hl1].
  unfold wf, aligned, Len in *. cbn [keys vals lastUse kcap set_lastUse].
  rewrite Ek, Ev, Ec, !length_app, El. subst c2. unfold push_key, Len. simpl.
  rewrite !length_app. simpl.
  destruct (Z.ltb_spec (kcap c1) (Z.of_nat (length (keys c1)) + 1)); lia.
Qed.

Lemma Get_wf key c :
  wf c → ∃ r c', Get key c = Some (r, c') ∧ wf c' ∧ kcap c' = kcap c.
Proof.
  intros (Ha & Hle & Hpos). rewrite Get_eq.
  destruct (scan key c) as [i|] eqn:Hs.
  - apply scan_Some, lookup_lt_Some in Hs.
    destruct (nextTick_fields c) as (Ek & Ev & Ec & _ & _ & El).
    destruct Ha as [Hv Hl]. unfold store.
    rewrite decide_True by lia. cbn [mbind option_bind].
    destruct (lookup_lt_is_Some_2 (vals (nextTick c).2) i) as [v ->];
      [rewrite Ev; lia|].
    cbn [mbind option_bind]. eexists _, _. split; [done|].
    unfold wf, aligned, Len in *. cbn [keys vals lastUse kcap set_lastUse].
    rewrite length_insert, Ek, Ev, Ec, El. lia.
  - eexists _, _. split; [done|]. done.
Qed.

Lemma Set_wf key val c :
  wf c → ∃ r c', Set_ key val c = Some (r, c') ∧ wf c' ∧ kcap c' = kcap c.
Proof.
  intros Hwf. unfold Set_. destruct (Has key c).
  - by eexists _, _.
  - destruct (append_wf key val c Hwf) as (c' & -> & ? & ?). simpl.
    by eexists _, _.
Qed.

Lemma Replace_wf key val c :
  wf c →
  ∃ r c', Replace key val c = Some (r, c') ∧ wf c' ∧ kcap c' = kcap c.
Proof.
  intros Hwf. rewrite Replace_eq.
  destruct (scan key c) as [i|] eqn:Hs.
  - destruct Hwf as ([Hv Hl] & Hle & Hpos).
    apply scan_Some, lookup_lt_Some in Hs.
    destruct (lookup_lt_is_Some_2 (vals c) i) as [old ->]; [lia|].
    cbn [mbind option_bind].
    set (c1 := set_vals (<[i:=val]> (vals c)) c).
    destruct (nextTick_fields c1) as (Ek & Ev & Ec & _ & _ & El).
    unfold store. rewrite decide_True by (rewrite El; simpl; lia).
    cbn [mbind option_bind].
    eexists _, _. split; [done|].
    match goal with |- wf (evict key old ?c2) ∧ _ =>
      destruct (evict_fields key old c2) as (Fk & Fv & Fl & _ & Fc & _) end.
    unfold wf, aligned, Len in *. rewrite Fk, Fv, Fl, Fc.
    cbn [keys vals lastUse kcap set_lastUse].
    rewrite Ek, Ev, Ec, !length_insert, El. subst c1. simpl.
    rewrite length_insert. lia.
  - destruct (append_wf key val c Hwf) as (c' & -> & ? & ?). simpl.
    by eexists _, _.
Qed.

Lemma Remove_wf key c :
  wf c → ∃ r c', Remove key c = Some (r, c') ∧ wf c' ∧ kcap c' = kcap c.
Proof.
  intros (Ha & Hle & Hpos). unfold Remove.
  destruct (scan key c) as [i|] eqn:Hs.
  - apply scan_Some, lookup_lt_Some in Hs.
    destruct (remove_aligned i c) as (c' & -> & ? & Hl & Hc & _); [done..|].
    simpl. eexists _, _. split; [done|].
    unfold wf, Len in *. rewrite Hl, Hc. split_and!; [done|lia..].
  - by eexists _, _.
Qed.

Lemma GetOrSet_wf {E} key (setter : K → V * option E) c :
  wf c →
  ∃ r c', GetOrSet key setter c = Some (r, c') ∧ wf c' ∧ kcap c' = kcap c.
Proof.
  intros Hwf. unfold GetOrSet.
  destruct (Get_wf key c Hwf) as ([v ok] & c1 & -> & Hwf1 & Hc1).
  cbn [mbind option_bind]. destruct ok; [by eexists _, _|].
  destruct (setter key) as [v' [e|]]; [by eexists _, _|].
  destruct (append_wf key v' c1 Hwf1) as (c2 & -> & ? & ?).
  cbn [mbind option_bind]. eexists _, _. split; [done|]. split; [done|lia].
Qed.

Lemma evictAll_fields ks : ∀ i c,
  (i + length ks ≤ length (vals c))%nat →
  ∃ c', evictAll i ks c = Some c' ∧ kcap c' = kcap c ∧
        evicted c' = evicted c.
Proof.
  induction ks as [|k ks IH]; intros i c Hlen; simpl in *.
  - by eexists.
  - destruct (lookup_lt_is_Some_2 (vals c) i) as [v ->]; [lia|].
    cbn [mbind option_bind].
    destruct (evict_fields k v c) as (_ & Ev & _ & _ & Ec & Ecb).
    destruct (IH (S i) (evict k v c)) as (c' & -> & ? & ?);
      [rewrite Ev; lia|].
    eexists. split; [done|]. split; congruence.
Qed.

Lemma RemoveAll_wf c :
  wf c → ∃ c', RemoveAll c = Some c' ∧ wf c' ∧ kcap c' = kcap c.
Proof.
  intros ([Hv Hl] & Hle & Hpos). unfold RemoveAll.
  destruct (evictAll_fields (keys c) 0 c) as (c' & -> & Hc & _); [lia|].
  cbn [mbind option_bind]. eexists. split; [done|].
  unfold wf, aligned, Len. simpl. lia.
Qed.

Lemma Reset_wf c : wf c → wf (Reset c) ∧ kcap (Reset c) = kcap c.
Proof. intros (_ & _ & Hpos). unfold wf, aligned, Len. simpl. lia. Qed.

(** *** [Resize] *)

Lemma remove_length idx c c' :
  remove idx c = Some c' →
  length (keys c) ≠ 0%nat ∧ length (keys c') = (length (keys c) - 1)%nat.
Proof.
  unfold remove. intros Hr.
  destruct (keys c !! idx) as [key|] eqn:Hk; [|done].
  apply lookup_lt_Some in Hk.
  repeat (match type of Hr with
          | (?m ≫= _) = Some _ => destruct m; [|done]
          end; cbn [mbind option_bind] in Hr).
  inversion Hr as [Hc'].
  match goal with |- _ ∧ length (keys (evict ?k ?v ?c1)) = _ =>
    destruct (evict_fields k v c1) as (-> & _) end.
  simpl. rewrite length_take, !length_insert. lia.
Qed.

(** A [removeOldest] that returns took exactly one entry away, unless
    the cache was empty. *)
Lemma removeOldest_length c c' :
  removeOldest c = Some c' →
  (length (keys c) = 0%nat ∧ c' = c) ∨
  (length (keys c) ≠ 0%nat ∧ length (keys c') = (length (keys c) - 1)%nat).
Proof.
  unfold removeOldest. rewrite removeOldest_rec_S.
  destruct (decide (length (keys c) = 0)%nat) as [Hk|Hk].
  - intros [= <-]. by left.
  - intros Hr. right. destruct (find (oldestTick c) c).
    + by apply remove_length in Hr.
    + rewrite removeOldest_rec_S in Hr. simpl in Hr.
      rewrite decide_False in Hr by done.
      destruct (find _ (repair c)); [|done].
      by apply remove_length in Hr.
Qed.

Lemma shrink_spin n capacity c :
  length (keys c) = 0%nat → capacity < 0 → shrink n capacity c = None.
Proof.
  intros Hk Hneg.
  assert ((capacity <? Len c) = true) as Hlt
    by (apply Z.ltb_lt; unfold Len; lia).
  induction n as [|n IH]; simpl; rewrite Hlt; [done|].
  unfold removeOldest. by rewrite removeOldest_rec_S, decide_True.
Qed.

(** [length (keys c)] rounds are all the loop of [Resize] can use. *)
Lemma shrink_fuel capacity : ∀ n m c,
  (length (keys c) ≤ n)%nat → (length (keys c) ≤ m)%nat →
  shrink n capacity c = shrink m capacity c.
Proof.
  induction n as [|n IH]; intros m c Hn Hm.
  - destruct (Z.ltb_spec capacity (Len c)) as [Hlt|Hge].
    + unfold Len in Hlt. rewrite !shrink_spin; [done|lia..].
    + destruct m; simpl; by destruct (Z.ltb_spec capacity (Len c)); [lia|].
  - destruct m as [|m]; simpl; destruct (Z.ltb_spec capacity (Len c))
      as [Hlt|Hge]; [|done| |done].
    + unfold Len in Hlt. pose proof (shrink_spin (S n) capacity c) as Hs.
      simpl in Hs. destruct (Z.ltb_spec capacity (Len c)); [|unfold Len in *; lia].
      apply Hs; lia.
    + destruct (removeOldest c) as [c'|] eqn:Hr; [|done].
      cbn [mbind option_bind].
      destruct (removeOldest_length c c' Hr) as [[Hk ->]|[Hk Hl]].
      * unfold Len in Hlt. rewrite !shrink_spin; [done|lia..].
      * apply IH; lia.
Qed.

Lemma shrink_fits n capacity c :
  Len c ≤ capacity → shrink n capacity c = Some c.
Proof.
  intros Hle. destruct n; simpl; by destruct (Z.ltb_spec capacity (Len c));
    [lia|].
Qed.

(** A call of [Resize] that changes the capacity without having to
    evict keeps the three slices and leaves the clock at 0. *)
Lemma Resize_fits capacity c :
  kcap c ≠ capacity → Len c ≤ capacity →
  Resize capacity c =
  Some (Lru (keys c) (vals c) (lastUse c) 0 capacity (evicted c)
          (notified c)).
Proof.
  intros Hne Hle. unfold Resize.
  destruct (Z.eqb_spec (kcap c) capacity); [done|].
  rewrite shrink_fits by done. cbn [mbind option_bind].
  destruct (Z.ltb_spec capacity 0); [unfold Len in *; lia|done].
Qed.

Lemma shrink_aligned capacity : ∀ n c,
  aligned c → 0 ≤ capacity → (length (keys c) ≤ n)%nat →
  ∃ c', shrink n capacity c = Some c' ∧ aligned c' ∧ Len c' ≤ capacity.
Proof.
  induction n as [|n IH]; intros c Ha Hcap Hn.
  - assert (Len c ≤ capacity) by (unfold Len; lia).
    exists c. by rewrite shrink_fits.
  - simpl. destruct (Z.ltb_spec capacity (Len c)) as [Hlt|Hge];
      [|by exists c].
    destruct (removeOldest_aligned c) as (c1 & -> & Ha1 & Hl1 & _);
      [done|unfold Len in Hlt; lia|].
    cbn [mbind option_bind]. apply IH; [done..|lia].
Qed.

Lemma Resize_wf capacity c :
  wf c → 0 < capacity →
  ∃ c', Resize capacity c = Some c' ∧ wf c' ∧ kcap c' = capacity.
Proof.
  intros (Ha & Hle & Hpos) Hcap. unfold Resize.
  destruct (Z.eqb_spec (kcap c) capacity) as [<-|Hne]; [by exists c|].
  destruct (shrink_aligned capacity (length (keys c)) c)
    as (c1 & -> & [Hv Hl] & Hfit); [done|lia|lia|].
  cbn [mbind option_bind]. destruct (Z.ltb_spec capacity 0); [lia|].
  eexists. split; [done|]. unfold wf, aligned, Len in *. simpl. lia.
Qed.

(** *** Sequences of calls *)

Lemma step_wf {E} (o : op K V E) c :
  wf c → positive_resize o → ∃ c', step o c = Some c' ∧ wf c'.
Proof.
  intros Hwf Hpos. destruct o as [key|key|key setter|key val|key val|key| | |capacity];
    simpl.
  - by exists c.
  - destruct (Get_wf key c Hwf) as (r & c' & -> & ? & _). by exists c'.
  - destruct (GetOrSet_wf key setter c Hwf) as (r & c' & -> & ? & _).
    by exists c'.
  - destruct (Set_wf key val c Hwf) as (r & c' & -> & ? & _). by exists c'.
  - destruct (Replace_wf key val c Hwf) as (r & c' & -> & ? & _).
    by exists c'.
  - destruct (Remove_wf key c Hwf) as (r & c' & -> & ? & _). by exists c'.
  - destruct (RemoveAll_wf c Hwf) as (c' & -> & ? & _). by exists c'.
  - exists (Reset c). split; [done|]. by apply Reset_wf.
  - destruct (Resize_wf capacity c Hwf Hpos) as (c' & -> & ? & _).
    by exists c'.
Qed.

(** No sequence of calls panics or hangs on a cache of positive
    capacity. *)
Lemma run_wf {E} (os : list (op K V E)) : ∀ c,
  wf c → Forall positive_resize os → ∃ c', run os c = Some c' ∧ wf c'.
Proof.
  induction os as [|o os IH]; intros c Hwf Hos; simpl.
  - by exists c.
  - inversion Hos as [|? ? Ho Hos']; subst.
    destruct (step_wf o c Hwf Ho) as (c1 & -> & Hwf1).
    cbn [mbind option_bind]. by apply IH.
Qed.

Lemma New_wf capacity cb :
  0 < capacity →
  ∃ c, New capacity cb = Some c ∧ wf c ∧ kcap c = capacity.
Proof.
  intros Hpos. unfold New. destruct (Z.ltb_spec capacity 0); [lia|].
  eexists. split; [done|]. unfold wf, aligned, Len. simpl. lia.
Qed.

Lemma step_inserting_wf {E} (o : op K V E) c :
  wf c → inserting o → ∃ c', step o c = Some c' ∧ wf c' ∧ kcap c' = kcap c.
Proof.
  intros Hwf Hin. destruct o as [key|key|key setter|key val|key val|key| | |capacity];
    try done; simpl.
  - destruct (GetOrSet_wf key setter c Hwf) as (r & c' & -> & ? & ?).
    by exists c'.
  - destruct (Set_wf key val c Hwf) as (r & c' & -> & ? & ?). by exists c'.
  - destruct (Replace_wf key val c Hwf) as (r & c' & -> & ? & ?).
    by exists c'.
Qed.

Lemma run_inserting {E} (os : list (op K V E)) capacity cb :
  0 < capacity → Forall inserting os →
  ∃ c, New capacity cb ≫= run os = Some c ∧ wf c ∧ kcap c = capacity.
Proof.
  intros Hpos Hos.
  destruct (New_wf capacity cb Hpos) as (c0 & -> & Hwf0 & Hc0).
  cbn [mbind option_bind]. rewrite <-Hc0. clear Hc0 Hpos. revert c0 Hwf0.
  induction os as [|o os IH]; intros c Hwf; simpl.
  - by exists c.
  - inversion Hos as [|? ? Ho Hos']; subst.
    destruct (step_inserting_wf o c Hwf Ho) as (c1 & -> & Hwf1 & Hc1).
    cbn [mbind option_bind].
    destruct (IH Hos' c1 Hwf1) as (c' & -> & ? & ?).
    exists c'. split; [done|]. split; [done|congruence].
Qed.

(** The capacity bound: whatever [Set], [Replace] and [GetOrSet] calls
    are made on a cache of positive capacity, they all return and the
    cache never holds more entries than its capacity. *)
Lemma run_Len_le_capacity {E} (os : list (op K V E)) capacity cb :
  0 < capacity → Forall inserting os →
  ∃ c, New capacity cb ≫= run os = Some c ∧ Len c ≤ capacity.
Proof.
  intros Hpos Hos.
  destruct (run_inserting os capacity cb Hpos Hos)
    as (c & Hrun & (_ & Hle & _) & Hc).
  exists c. split; [done|lia].
Qed.

(** *** [repair] and the iterators *)

Lemma find_repair_slot c i :
  (i < length (lastUse c))%nat → find (Z.of_nat i) (repair c) = Some i.
Proof.
  intros Hi. unfold find, repair. simpl.
  assert (list_find (λ x : Z, x = Z.of_nat i)
            (Z.of_nat <$> seq 0 (length (lastUse c)))
          = Some (i, Z.of_nat i)) as ->; [|done].
  apply list_find_Some. split_and!.
  - by rewrite list_lookup_fmap, lookup_seq_lt.
  - done.
  - intros j y Hj Hlt. rewrite list_lookup_fmap in Hj.
    apply fmap_Some in Hj as (k & Hk & ->).
    apply lookup_seq in Hk as [-> _]. lia.
Qed.

(** Once [repair] has run, the ascending walk visits the slots in
    storage order. *)
Lemma walk_repair c : ∀ m i,
  aligned c → Len c < 2 ^ 64 → (i + m = length (keys c))%nat →
  walk (λ t, u64 (t + 1)) m (Z.of_nat i) (repair c) =
  mapM (λ j, k ← keys c !! j; v ← vals c !! j; Some (k, v)) (seq i m).
Proof.
  induction m as [|m IH]; intros i [Hv Hl] Hlen Him; [done|].
  cbn [walk seq mapM]. rewrite find_repair_slot by lia.
  change (keys (repair c)) with (keys c).
  change (vals (repair c)) with (vals c).
  destruct (lookup_lt_is_Some_2 (keys c) i) as [k ->]; [lia|].
  destruct (lookup_lt_is_Some_2 (vals c) i) as [v ->]; [lia|].
  cbn [mbind option_bind].
  rewrite u64_small by (unfold Len in Hlen; lia).
  replace (Z.of_nat i + 1) with (Z.of_nat (S i)) by lia.
  by rewrite IH by (done || lia).
Qed.

Lemma IterateAsc_repair c :
  aligned c → Len c < 2 ^ 64 → IterateAsc (repair c) = Iterate c.
Proof.
  intros Ha Hlen. unfold IterateAsc, Iterate.
  rewrite oldestTick_repair.
  change (keys (repair c)) with (keys c).
  by apply (walk_repair c (length (keys c)) 0%nat).
Qed.

(** *** Calls on a key that is, or is not, in the cache *)


Lemma Set_absent key val c :
  key ∉ keys c →
  Set_ key val c = c' ← append key val c; Some (true, c').
Proof.
  intros Hk%scan_None. unfold Set_, Has. by rewrite Hk.
Qed.

Lemma Get_miss key c : key ∉ keys c → Get key c = Some (zeroV, false, c).
Proof. intros Hk%scan_None. unfold Get. by rewrite Hk. Qed.

(** On a hit, away from the end of the [uint64] range, [Get] stamps
    the slot of the key with the clock and advances the clock. *)
Lemma Get_hit key c i v :
  scan key c = Some i → vals c !! i = Some v →
  (i < length (lastUse c))%nat → tick c ≠ MaxUint64 →
  Get key c =
  Some (v, true,
        Lru (keys c) (vals c) (<[i:=tick c]> (lastUse c))
          (u64 (tick c + 1)) (kcap c) (evicted c) (notified c)).
Proof.
  intros Hs Hv Hi Ht. rewrite Get_eq, Hs, nextTick_plain by done.
  cbn [fst snd]. unfold store. cbn [lastUse set_tick vals].
  rewrite decide_True by done. cbn [mbind option_bind]. by rewrite Hv.
Qed.

(** *** The recency window *)

Lemma swap_remove_Permutation {A} (l : list A) (j : nat) (y : A) :
  last l = Some y → (j < length l)%nat →
  take (length l - 1) (<[j:=y]> l) ≡ₚ delete j l.
Proof.
  revert j. induction l as [|a l IH]; intros j Hlast Hj; [simpl in Hj; lia|].
  destruct l as [|b l].
  - destruct j; [done|simpl in Hj; lia].
  - change (last (a :: b :: l)) with (last (b :: l)) in Hlast.
    replace (length (a :: b :: l) - 1)%nat with (S (length (b :: l) - 1))
      by (simpl; lia).
    destruct j as [|j].
    + cbn [list_insert take delete list_delete].
      apply last_Some in Hlast as [l' Hl']. rewrite Hl'.
      rewrite length_app. simpl.
      replace (length l' + 1 - 1)%nat with (length l') by lia.
      rewrite take_app_length. apply Permutation_cons_append.
    + cbn [list_insert take delete list_delete]. constructor.
      apply IH; [done|simpl in *; lia].
Qed.

Lemma insert_Permutation {A} (l : list A) (j : nat) (x : A) :
  (j < length l)%nat → <[j:=x]> l ≡ₚ x :: delete j l.
Proof.
  intros Hj. rewrite (delete_Permutation (<[j:=x]> l) j x)
    by by apply list_lookup_insert_eq.
  constructor. rewrite !delete_take_drop, take_insert_ge, drop_insert_lt;
    [done|lia..].
Qed.

Lemma length_slots c : aligned c → length (slots c) = length (keys c).
Proof.
  intros [Hv Hl]. unfold slots. rewrite !length_zip_with. lia.
Qed.

Lemma lookup_slots c j k v t :
  slots c !! j = Some (k, v, t) ↔
  keys c !! j = Some k ∧ vals c !! j = Some v ∧ lastUse c !! j = Some t.
Proof.
  unfold slots. rewrite lookup_zip_with_Some. split.
  - intros ([k' v'] & t' & [= -> -> ->] & Hkv & Ht).
    apply lookup_zip_with_Some in Hkv as (? & ? & [= -> ->] & ? & ?). done.
  - intros (Hk & Hv & Ht). exists (k, v), t. split; [done|]. split; [|done].
    apply lookup_zip_with_Some. by exists k, v.
Qed.

Lemma slots_lastUse c : aligned c → (slots c).*2 = lastUse c.
Proof.
  intros [Hv Hl]. unfold slots. apply snd_zip.
  rewrite length_zip_with. lia.
Qed.

Lemma slots_keys c : aligned c → (slots c).*1.*1 = keys c.
Proof.
  intros [Hv Hl]. unfold slots. rewrite fst_zip, fst_zip; [done|lia|].
  rewrite length_zip_with. lia.
Qed.

Lemma length_stamped base (r : list (K * V)) :
  length (stamped base r) = length r.
Proof. apply length_imap. Qed.

Lemma stamped_ticks base (r : list (K * V)) :
  (stamped base r).*2 = (λ i, base + Z.of_nat i) <$> seq 0 (length r).
Proof.
  unfold stamped. rewrite fmap_imap. rewrite <-imap_seq_0.
  by apply imap_ext.
Qed.

Lemma stamped_app base (r1 r2 : list (K * V)) :
  stamped base (r1 ++ r2) =
  stamped base r1 ++ stamped (base + Z.of_nat (length r1)) r2.
Proof.
  unfold stamped. rewrite imap_app. f_equal.
  apply imap_ext. intros i kv _. simpl. f_equal. lia.
Qed.

Lemma stamped_cons base kv (r : list (K * V)) :
  stamped base (kv :: r) = (kv, base) :: stamped (base + 1) r.
Proof.
  unfold stamped. rewrite imap_cons. f_equal; [f_equal; lia|].
  apply imap_ext. intros i kv' _. simpl. f_equal. lia.
Qed.

Lemma stamped_entries (r : list (K * V)) : ∀ base, (stamped base r).*1 = r.
Proof.
  induction r as [|kv r IH]; intros base; [done|].
  rewrite stamped_cons. simpl. by rewrite IH.
Qed.

Lemma ordered_length c r : ordered c r → length r = length (keys c).
Proof.
  intros (Ha & _ & _ & Hp). apply Permutation_length in Hp.
  by rewrite length_slots, length_stamped in Hp.
Qed.

Lemma ordered_NoDup_lastUse c r : ordered c r → NoDup (lastUse c).
Proof.
  intros (Ha & _ & _ & Hp). rewrite <-(slots_lastUse c Ha), Hp.
  rewrite stamped_ticks. apply NoDup_fmap_2_strong; [|apply NoDup_seq].
  intros i j _ _ Hij. lia.
Qed.

Lemma ordered_NoDup_keys c r : ordered c r → NoDup (keys c).
Proof.
  intros (Ha & Hnd & _ & Hp). rewrite <-(slots_keys c Ha), Hp.
  by rewrite stamped_entries.
Qed.

(** The entry at position [i] of the recency order sits in the slot
    that [find] returns for the tick [tick - len + i]. *)
Lemma ordered_find c r i k v :
  ordered c r → r !! i = Some (k, v) →
  ∃ j, find (tick c - Len c + Z.of_nat i) c = Some j ∧
       keys c !! j = Some k ∧ vals c !! j = Some v.
Proof.
  intros Ho Hi. pose proof (ordered_NoDup_lastUse c r Ho) as Hnd.
  destruct Ho as (Ha & _ & _ & Hp).
  assert ((k, v, tick c - Len c + Z.of_nat i) ∈ slots c) as Hin.
  { rewrite Hp. apply list_elem_of_lookup. exists i.
    unfold stamped. by rewrite list_lookup_imap, Hi. }
  apply list_elem_of_lookup in Hin as [j Hj].
  apply lookup_slots in Hj as (Hk & Hv & Ht).
  exists j. split; [|done]. unfold find.
  assert (list_find (λ x, x = tick c - Len c + Z.of_nat i) (lastUse c)
          = Some (j, tick c - Len c + Z.of_nat i)) as ->; [|done].
  apply list_find_Some. split_and!; [done..|].
  intros j' y Hj' Hlt ->.
  pose proof (NoDup_lookup _ _ _ _ Hnd Hj' Ht). lia.
Qed.

Lemma ordered_range c r :
  ordered c r → 0 ≤ tick c - Len c ∧ tick c < 2 ^ 64 - 1.
Proof. intros (_ & _ & Hr & _). unfold MaxUint64 in Hr. lia. Qed.

Lemma oldestTick_ordered c r : ordered c r → oldestTick c = tick c - Len c.
Proof.
  intros Ho. apply ordered_range in Ho. unfold oldestTick.
  apply u64_small. unfold Len in *. lia.
Qed.

(** In a cache that keeps the recency window the ascending iterator
    yields the entries from the least to the most recently touched. *)
Lemma walk_up_ordered c r : ordered c r → ∀ m i,
  (i + m = length r)%nat →
  walk (λ t, u64 (t + 1)) m (tick c - Len c + Z.of_nat i) c
  = Some (drop i r).
Proof.
  intros Ho. pose proof (ordered_range c r Ho) as Hrange.
  pose proof (ordered_length c r Ho) as Hlen.
  induction m as [|m IH]; intros i Him.
  - by rewrite drop_ge by lia.
  - destruct (lookup_lt_is_Some_2 r i) as [[k v] Hi]; [lia|].
    destruct (ordered_find c r i k v Ho Hi) as (j & Hf & Hk & Hv).
    cbn [walk]. rewrite Hf, Hk, Hv. cbn [mbind option_bind].
    rewrite u64_small by (unfold Len in *; lia).
    replace (tick c - Len c + Z.of_nat i + 1)
      with (tick c - Len c + Z.of_nat (S i)) by lia.
    rewrite IH by lia. cbn [mbind option_bind].
    by rewrite (drop_S r (k, v) i).
Qed.

Lemma IterateAsc_ordered c r : ordered c r → IterateAsc c = Some r.
Proof.
  intros Ho. unfold IterateAsc.
  rewrite (oldestTick_ordered c r Ho), <-(ordered_length c r Ho).
  replace (tick c - Len c) with (tick c - Len c + Z.of_nat 0) by lia.
  by rewrite (walk_up_ordered c r Ho).
Qed.

Lemma walk_down_ordered c r : ordered c r → ∀ m t,
  (m ≤ length r)%nat → (m ≠ 0%nat → t = tick c - Len c + Z.of_nat m - 1) →
  walk (λ t, u64 (t - 1)) m t c = Some (reverse (take m r)).
Proof.
  intros Ho. pose proof (ordered_range c r Ho) as Hrange.
  pose proof (ordered_length c r Ho) as Hlen.
  induction m as [|m IH]; intros t Hm Ht; [done|].
  destruct (lookup_lt_is_Some_2 r m) as [[k v] Hi]; [lia|].
  destruct (ordered_find c r m k v Ho Hi) as (j & Hf & Hk & Hv).
  cbn [walk]. rewrite Ht by done.
  replace (tick c - Len c + Z.of_nat (S m) - 1)
    with (tick c - Len c + Z.of_nat m) by lia.
  rewrite Hf, Hk, Hv. cbn [mbind option_bind].
  rewrite IH; [|lia|].
  - cbn [mbind option_bind]. by rewrite (take_S_r r m (k, v)), reverse_snoc.
  - intros Hm0. rewrite u64_small; unfold Len in *; lia.
Qed.

Lemma IterateDesc_ordered c r :
  ordered c r → IterateDesc c = Some (reverse r).
Proof.
  intros Ho. pose proof (ordered_range c r Ho) as Hrange.
  pose proof (ordered_length c r Ho) as Hlen. unfold IterateDesc.
  rewrite (walk_down_ordered c r Ho); [by rewrite take_ge by lia|lia|].
  intros Hn. rewrite u64_small; unfold Len in *; lia.
Qed.

Lemma evict_notified key val c :
  notified (evict key val c)
  = notified c ++ (if evicted c then [(key, val)] else []).
Proof. unfold evict. destruct (evicted c); [done|]. by rewrite app_nil_r. Qed.

Lemma slots_evict key val c : slots (evict key val c) = slots c.
Proof.
  destruct (evict_fields key val c) as (Ek & Ev & El & _).
  unfold slots. by rewrite Ek, Ev, El.
Qed.

(** [remove] takes the slot [j] out of the cache and reports it. *)
Lemma remove_slots j c k v :
  aligned c → keys c !! j = Some k → vals c !! j = Some v →
  ∃ c', remove j c = Some c' ∧ aligned c' ∧
        slots c' ≡ₚ delete j (slots c) ∧
        length (keys c') = (length (keys c) - 1)%nat ∧
        tick c' = tick c ∧ kcap c' = kcap c ∧ evicted c' = evicted c ∧
        notified c' = notified c ++ (if evicted c then [(k, v)] else []).
Proof.
  intros Ha Hk Hva. pose proof Ha as [Hv Ht].
  pose proof (lookup_lt_Some _ _ _ Hk) as Hj. unfold remove.
  set (e := (length (keys c) - 1)%nat).
  destruct (lookup_lt_is_Some_2 (keys c) e) as [ke Hke]; [lia|].
  destruct (lookup_lt_is_Some_2 (vals c) e) as [ve Hve]; [lia|].
  destruct (lookup_lt_is_Some_2 (lastUse c) j) as [ti Hti]; [lia|].
  destruct (lookup_lt_is_Some_2 (lastUse c) e) as [te Hte]; [lia|].
  rewrite Hk, Hke, Hva, Hve, Hti, Hte. cbn [mbind option_bind].
  eexists. split; [done|].
  match goal with |- context [evict k v ?c1] =>
    destruct (evict_fields k v c1) as (Ek & Ev & El & Et & Ec & Ecb);
    pose proof (evict_notified k v c1) as En;
    pose proof (slots_evict k v c1) as Es
  end.
  unfold aligned. rewrite Ek, Ev, El, Et, Ec, Ecb, En, Es.
  cbn [keys vals lastUse tick kcap evicted notified set_keys set_vals
       set_lastUse].
  rewrite !length_take, !length_insert.
  split_and!; [lia|lia| |lia|done..].
  unfold slots.
  cbn [keys vals lastUse set_keys set_vals set_lastUse].
  rewrite !(take_insert_ge _ e e) by lia.
  rewrite <-!zip_with_take, <-!insert_zip_with.
  fold (slots c).
  replace e with (length (slots c) - 1)%nat
    by (rewrite length_slots by done; done).
  apply swap_remove_Permutation; [|rewrite length_slots by done; lia].
  rewrite last_lookup, length_slots by done.
  replace (pred (length (keys c))) with e by (subst e; lia).
  by apply lookup_slots.
Qed.

Lemma ordered_keys c r : ordered c r → keys c ≡ₚ r.*1.
Proof.
  intros (Ha & _ & _ & Hp). rewrite <-(slots_keys c Ha), Hp.
  by rewrite stamped_entries.
Qed.

(** The slot that holds the entry at position [i] of the recency
    order: [scan] finds it by its key, [find] by its tick. *)
Lemma ordered_slot c r i k v :
  ordered c r → r !! i = Some (k, v) →
  ∃ j, scan k c = Some j ∧ find (tick c - Len c + Z.of_nat i) c = Some j ∧
       slots c !! j = Some (k, v, tick c - Len c + Z.of_nat i).
Proof.
  intros Ho Hi. destruct (ordered_find c r i k v Ho Hi) as (j & Hf & Hk & Hv).
  pose proof (ordered_NoDup_keys c r Ho) as Hnd.
  exists j. split_and!; [|done|].
  - unfold scan.
    assert (list_find (λ k', k' = k) (keys c) = Some (j, k)) as ->; [|done].
    apply list_find_Some. split_and!; [done..|].
    intros j' y Hj' Hlt ->. pose proof (NoDup_lookup _ _ _ _ Hnd Hj' Hk). lia.
  - apply lookup_slots. split_and!; [done..|]. by apply find_Some in Hf.
Qed.

(** Taking the slot of the least recently touched entry out keeps the
    window. *)
Lemma remove_first_ordered c j k v r :
  ordered c ((k, v) :: r) → slots c !! j = Some (k, v, tick c - Len c) →
  ∃ c', remove j c = Some c' ∧ ordered c' r ∧
        tick c' = tick c ∧ Len c' = Len c - 1 ∧
        kcap c' = kcap c ∧ evicted c' = evicted c ∧
        notified c' = notified c ++ (if evicted c then [(k, v)] else []).
Proof.
  intros Ho Hj. pose proof (ordered_length _ _ Ho) as Hlen. simpl in Hlen.
  destruct Ho as (Ha & Hnd & Hr & Hp).
  pose proof Hj as (Hk & Hv & _)%lookup_slots.
  destruct (remove_slots j c k v Ha Hk Hv)
    as (c' & -> & Ha' & Hs' & Hl' & Ht' & Hc' & Hcb' & Hn').
  exists c'. split; [done|].
  assert (Len c' = Len c - 1) as HLen by (unfold Len; lia).
  split_and!; try done.
  split_and!; [done|by apply NoDup_cons in Hnd as [_ ?]|lia..|].
  rewrite Hs', Ht', HLen.
  rewrite stamped_cons in Hp.
  rewrite (delete_Permutation _ _ _ Hj) in Hp.
  apply Permutation_cons_inv in Hp. rewrite Hp.
  by replace (tick c - (Len c - 1)) with (tick c - Len c + 1) by lia.
Qed.

(** In a cache that keeps the recency window [removeOldest] evicts the
    least recently touched entry, and keeps the window. *)
Lemma removeOldest_ordered c k v r :
  ordered c ((k, v) :: r) →
  ∃ c', removeOldest c = Some c' ∧ ordered c' r ∧
        tick c' = tick c ∧ Len c' = Len c - 1 ∧
        kcap c' = kcap c ∧ evicted c' = evicted c ∧
        notified c' = notified c ++ (if evicted c then [(k, v)] else []).
Proof.
  intros Ho. pose proof (ordered_length _ _ Ho) as Hlen. simpl in Hlen.
  destruct (ordered_slot c _ 0 k v Ho eq_refl) as (j & _ & Hf & Hj).
  rewrite Z.add_0_r in Hf, Hj.
  unfold removeOldest. rewrite removeOldest_rec_S.
  rewrite decide_False by lia.
  rewrite (oldestTick_ordered c ((k, v) :: r)), Hf by done.
  by apply remove_first_ordered.
Qed.

(** With room left and away from the end of the [uint64] range,
    [append] adds a slot stamped with the clock. *)
Lemma append_room key val c :
  Len c < kcap c → tick c ≠ MaxUint64 →
  append key val c =
  Some (Lru (keys c ++ [key]) (vals c ++ [val]) (lastUse c ++ [tick c])
          (u64 (tick c + 1)) (kcap c) (evicted c) (notified c)).
Proof.
  intros Hroom Ht. rewrite append_eq.
  destruct (Z.geb_spec (Len c) (kcap c)); [lia|]. cbn [mbind option_bind].
  rewrite nextTick_plain by done. unfold push_key.
  by destruct (Z.ltb_spec (kcap c) (Len c + 1)); [lia|].
Qed.

Lemma append_full key val c c1 :
  kcap c ≤ Len c → removeOldest c = Some c1 →
  Len c1 < kcap c1 → tick c1 ≠ MaxUint64 →
  append key val c =
  Some (Lru (keys c1 ++ [key]) (vals c1 ++ [val]) (lastUse c1 ++ [tick c1])
          (u64 (tick c1 + 1)) (kcap c1) (evicted c1) (notified c1)).
Proof.
  intros Hfull Hr Hroom Ht. rewrite <-(append_room key val c1) by done.
  rewrite !append_eq.
  destruct (Z.geb_spec (Len c) (kcap c)); [|lia].
  destruct (Z.geb_spec (Len c1) (kcap c1)); [lia|].
  by rewrite Hr.
Qed.

Lemma pushed_ordered key val c r :
  ordered c r → key ∉ r.*1 → tick c + 1 < MaxUint64 →
  ordered (Lru (keys c ++ [key]) (vals c ++ [val]) (lastUse c ++ [tick c])
             (u64 (tick c + 1)) (kcap c) (evicted c) (notified c))
    (r ++ [(key, val)]).
Proof.
  intros Ho Hk Ht. pose proof (ordered_range c r Ho) as Hrange.
  pose proof (ordered_length c r Ho) as Hlen.
  destruct Ho as ([Hv Hl] & Hnd & Hr & Hp).
  rewrite u64_small by (unfold MaxUint64, Len in *; lia).
  unfold ordered, aligned, Len in *.
  cbn [keys vals lastUse tick]. rewrite !length_app. cbn [length].
  split_and!; [lia|lia| |lia|lia|].
  - rewrite fmap_app. apply NoDup_app. split_and!; [done| |].
    + intros k Hin [->|[]%elem_of_nil]%elem_of_cons. done.
    + apply NoDup_singleton.
  - unfold slots. cbn [keys vals lastUse].
    rewrite !zip_with_app by (rewrite ?length_zip_with; lia).
    fold (slots c). rewrite Hp, stamped_app, stamped_cons, Hlen.
    replace (tick c + 1 - Z.of_nat (length (keys c) + 1))
      with (tick c - Z.of_nat (length (keys c))) by lia.
    by replace (tick c - Z.of_nat (length (keys c))
                + Z.of_nat (length (keys c))) with (tick c) by lia.
Qed.

(** In a cache that keeps the recency window, [append] of a new key
    evicts the least recently touched entry if the cache is full, adds
    the new entry as the most recently touched one, and keeps the
    window. *)
Lemma append_ordered key val c r :
  ordered c r → Len c ≤ kcap c → 0 < kcap c →
  key ∉ r.*1 → tick c + 1 < MaxUint64 →
  ∃ c', append key val c = Some c' ∧
        ordered c' ((if Len c >=? kcap c then tail r else r)
                    ++ [(key, val)]) ∧
        tick c' = tick c + 1 ∧ kcap c' = kcap c ∧ Len c' ≤ kcap c' ∧
        evicted c' = evicted c ∧
        notified c' = notified c ++
          (if Len c >=? kcap c then
             if evicted c then take 1 r else []
           else []).
Proof.
  intros Ho Hle Hpos Hk Ht.
  pose proof (ordered_length c r Ho) as Hlen.
  pose proof (ordered_range c r Ho) as Hrange.
  destruct (Z.geb_spec (Len c) (kcap c)) as [Hfull|Hroom].
  - destruct r as [|[k v] r]; [unfold Len in *; simpl in Hlen; lia|].
    destruct (removeOldest_ordered c k v r Ho)
      as (c1 & Hr1 & Ho1 & Ht1 & Hl1 & Hc1 & Hcb1 & Hn1).
    rewrite (append_full key val c c1); [|lia|done|lia|unfold MaxUint64 in *; lia].
    eexists. split; [done|]. cbn [tail].
    split; [apply pushed_ordered; [done| |lia]|].
    + intros Hin. apply Hk. simpl. by right.
    + cbn [tick kcap evicted notified].
      rewrite u64_small by (unfold MaxUint64, Len in *; lia).
      unfold Len in *. cbn [keys]. rewrite length_app. cbn [length].
      split_and!; [lia|done|lia|done|].
      rewrite Hn1. by destruct (evicted c).
  - rewrite append_room; [|lia|unfold MaxUint64 in *; lia].
    eexists. split; [done|].
    split; [by apply pushed_ordered|].
    cbn [tick kcap evicted notified].
    rewrite u64_small by (unfold MaxUint64, Len in *; lia).
    unfold Len in *. cbn [keys]. rewrite length_app. cbn [length].
    split_and!; [lia|done|lia|done|by rewrite app_nil_r].
Qed.

(** *** Touching the least recently touched entry *)

Lemma Replace_hit key val c i old :
  scan key c = Some i → vals c !! i = Some old →
  (i < length (lastUse c))%nat → tick c ≠ MaxUint64 →
  Replace key val c =
  Some (true,
        evict key old
          (Lru (keys c) (<[i:=val]> (vals c)) (<[i:=tick c]> (lastUse c))
             (u64 (tick c + 1)) (kcap c) (evicted c) (notified c))).
Proof.
  intros Hs Hv Hi Ht. rewrite Replace_eq, Hs, Hv. cbn [mbind option_bind].
  rewrite nextTick_plain by done.
  cbn [fst snd]. unfold store. cbn [lastUse set_tick set_vals].
  by rewrite decide_True by done.
Qed.

Lemma ordered_evict key val c r : ordered c r → ordered (evict key val c) r.
Proof.
  intros Ho. unfold evict. by destruct (evicted c).
Qed.

(** Stamping the slot of the least recently touched entry with the
    clock makes it the most recently touched one. *)
Lemma touched_ordered c j k v v' r :
  ordered c ((k, v) :: r) → slots c !! j = Some (k, v, tick c - Len c) →
  tick c + 1 < MaxUint64 →
  ordered (Lru (keys c) (<[j:=v']> (vals c)) (<[j:=tick c]> (lastUse c))
             (u64 (tick c + 1)) (kcap c) (evicted c) (notified c))
    (r ++ [(k, v')]).
Proof.
  intros Ho Hj Ht. pose proof (ordered_range _ _ Ho) as Hrange.
  pose proof (ordered_length _ _ Ho) as Hlen. simpl in Hlen.
  destruct Ho as (Ha & Hnd & Hr & Hp). pose proof Ha as [Hv Hl].
  pose proof Hj as (Hk & _ & _)%lookup_slots.
  pose proof (lookup_lt_Some _ _ _ Hk) as Hlt.
  rewrite u64_small by (unfold MaxUint64, Len in *; lia).
  unfold ordered, aligned, Len in *. cbn [keys vals lastUse tick].
  rewrite !length_insert.
  split_and!; [done|done| |lia|lia|].
  - rewrite fmap_app. simpl.
    by rewrite <-Permutation_cons_append.
  - unfold slots. cbn [keys vals lastUse].
    rewrite <-(list_insert_id (keys c) j k) at 1 by done.
    rewrite <-!insert_zip_with. fold (slots c).
    rewrite insert_Permutation by (rewrite length_slots; done).
    rewrite stamped_cons in Hp.
    rewrite (delete_Permutation _ _ _ Hj) in Hp.
    apply Permutation_cons_inv in Hp. rewrite Hp.
    rewrite stamped_app, stamped_cons. simpl.
    rewrite <-Permutation_cons_append.
    replace (tick c + 1 - Z.of_nat (length (keys c)))
      with (tick c - Z.of_nat (length (keys c)) + 1) by lia.
    by replace (tick c - Z.of_nat (length (keys c)) + 1
                + Z.of_nat (length r)) with (tick c) by lia.
Qed.

Lemma ordered_absent c r key : ordered c r → key ∉ r.*1 → key ∉ keys c.
Proof. intros Ho Hk. by rewrite (ordered_keys c r Ho). Qed.

Lemma ordered_present c r key : ordered c r → key ∈ r.*1 → Has key c = true.
Proof.
  intros Ho Hk. rewrite <-(ordered_keys c r Ho) in Hk. unfold Has.
  destruct (scan key c) eqn:Hs; [done|]. by apply scan_None in Hs.
Qed.

Lemma Get_oldest_ordered c k v r :
  ordered c ((k, v) :: r) → tick c + 1 < MaxUint64 →
  ∃ c', Get k c = Some (v, true, c') ∧ ordered c' (r ++ [(k, v)]) ∧
        tick c' = tick c + 1 ∧ keys c' = keys c ∧ kcap c' = kcap c ∧
        evicted c' = evicted c ∧ notified c' = notified c.
Proof.
  intros Ho Ht. pose proof (ordered_range _ _ Ho) as Hrange.
  destruct (ordered_slot c _ 0 k v Ho eq_refl) as (j & Hs & _ & Hj).
  rewrite Z.add_0_r in Hj.
  pose proof Hj as (Hk & Hv & Hl%lookup_lt_Some)%lookup_slots.
  rewrite (Get_hit k c j v); [|done..|unfold MaxUint64 in *; lia].
  eexists. split; [done|]. split.
  - rewrite <-(list_insert_id (vals c) j v) at 1 by done.
    by apply (touched_ordered c j k v v r).
  - cbn [tick keys kcap evicted notified].
    rewrite u64_small by (unfold MaxUint64, Len in *; lia). done.
Qed.

Lemma Replace_oldest_ordered c k v v' r :
  ordered c ((k, v) :: r) → tick c + 1 < MaxUint64 →
  ∃ c', Replace k v' c = Some (true, c') ∧ ordered c' (r ++ [(k, v')]) ∧
        tick c' = tick c + 1 ∧ keys c' = keys c ∧ kcap c' = kcap c ∧
        evicted c' = evicted c ∧
        notified c' = notified c ++ (if evicted c then [(k, v)] else []).
Proof.
  intros Ho Ht. pose proof (ordered_range _ _ Ho) as Hrange.
  destruct (ordered_slot c _ 0 k v Ho eq_refl) as (j & Hs & _ & Hj).
  rewrite Z.add_0_r in Hj.
  pose proof Hj as (Hk & Hv & Hl%lookup_lt_Some)%lookup_slots.
  rewrite (Replace_hit k v' c j v); [|done..|unfold MaxUint64 in *; lia].
  eexists. split; [done|]. split.
  - by apply ordered_evict, (touched_ordered c j k v v' r).
  - match goal with |- context [evict k v ?c1] =>
      destruct (evict_fields k v c1) as (Ek & _ & _ & Et & Ec & Ecb);
      pose proof (evict_notified k v c1) as En
    end.
    rewrite Ek, Et, Ec, Ecb, En. cbn [tick keys kcap evicted notified].
    rewrite u64_small by (unfold MaxUint64, Len in *; lia). done.
Qed.

Lemma Remove_oldest_ordered c k v r :
  ordered c ((k, v) :: r) →
  ∃ c', Remove k c = Some (true, c') ∧ ordered c' r ∧
        tick c' = tick c ∧ Len c' = Len c - 1 ∧ kcap c' = kcap c ∧
        evicted c' = evicted c ∧
        notified c' = notified c ++ (if evicted c then [(k, v)] else []).
Proof.
  intros Ho.
  destruct (ordered_slot c _ 0 k v Ho eq_refl) as (j & Hs & _ & Hj).
  rewrite Z.add_0_r in Hj. unfold Remove. rewrite Hs.
  destruct (remove_first_ordered c j k v r Ho Hj) as (c' & -> & ?).
  by exists c'.
Qed.

(** *** Calls that respect the recency window *)

Lemma untouch_absent key (l : list K) : key ∉ l → untouch key l = l.
Proof.
  unfold untouch. induction l as [|k l IH]; intros Hk; [done|].
  apply not_elem_of_cons in Hk as [Hne Hk].
  rewrite filter_cons_True by done. by rewrite IH.
Qed.

Lemma untouch_head key (l : list K) :
  NoDup (key :: l) → untouch key (key :: l) = l.
Proof.
  intros [Hk _]%NoDup_cons. unfold untouch.
  rewrite filter_cons_False by (intros Hne; by apply Hne).
  by apply untouch_absent.
Qed.

Lemma ordered_Reset c : ordered (Reset c) [].
Proof.
  unfold ordered, aligned, Len, MaxUint64. simpl.
  split_and!; [done|done|apply NoDup_nil_2|lia|lia|done].
Qed.

(** A present key that a gentle call names is the least recently
    touched one. *)
Lemma gentle_head key (r : list (K * V)) :
  NoDup r.*1 → key ∈ r.*1 → (key ∈ r.*1 → head r.*1 = Some key) →
  ∃ v r0, r = (key, v) :: r0 ∧ untouch key r.*1 = r0.*1.
Proof.
  intros Hnd Hin Hg. specialize (Hg Hin).
  destruct r as [|[k v] r0]; [done|]. simpl in Hg. injection Hg as ->.
  exists v, r0. split; [done|]. by apply untouch_head.
Qed.

Lemma step_stands_for {E} (o : op K V E) c ρ :
  stands_for c ρ → gentle o (order ρ) → tick c + 1 < MaxUint64 →
  ∃ c', step o c = Some c' ∧ stands_for c' (touch_step o ρ) ∧
        tick c' ≤ tick c + 1.
Proof.
  intros (r & Ho & Hr & Hcap & Hpos & Hle) Hg Ht.
  pose proof Ho as (_ & Hnd & _ & _).
  assert (0 ≤ tick c) as Htick
    by (destruct Ho as (_ & _ & ? & _); unfold Len in *; lia).
  pose proof (ordered_length c r Ho) as Hlen.
  assert (length (order ρ) = length (keys c)) as Hlen'
    by by rewrite <-Hr, length_fmap.
  assert (∀ key val, key ∉ r.*1 →
    ∃ c', append key val c = Some c' ∧
          stands_for c' (insert_recent key ρ) ∧ tick c' ≤ tick c + 1)
    as Hinsert.
  { intros key val Hk.
    destruct (append_ordered key val c r Ho Hle Hpos Hk Ht)
      as (c' & -> & Ho' & Ht' & Hc' & Hle' & _).
    exists c'. split; [done|]. split; [|lia].
    eexists. split; [exact Ho'|]. unfold insert_recent. simpl.
    rewrite fmap_app, Hcap, Hlen', Hc'. fold (Len c).
    split_and!; [|done|lia|lia].
    destruct (Len c >=? kcap c); by rewrite ?fmap_tail, Hr. }
  assert (∀ key, key ∈ r.*1 → (key ∈ order ρ → head (order ρ) = Some key) →
    ∃ v r0, r = (key, v) :: r0 ∧ untouch key (order ρ) = r0.*1) as Hhead.
  { intros key Hin Hgk. rewrite <-Hr in *. by apply gentle_head. }
  destruct o as [key|key|key setter|key val|key val|key| | |capacity];
    cbn [step touch_step].
  - exists c. split; [done|]. split; [by exists r|lia].
  - case_bool_decide as Hin.
    + rewrite <-Hr in Hin.
      destruct (Hhead key Hin Hg) as (v & r0 & -> & Hun).
      destruct (Get_oldest_ordered c key v r0 Ho Ht)
        as (c' & -> & Ho' & Ht' & Hk' & Hc' & _).
      exists c'. split; [done|]. split; [|lia].
      exists (r0 ++ [(key, v)]). unfold touch, Len. simpl.
      rewrite fmap_app, Hun, Hk', Hc'. done.
    + rewrite <-Hr in Hin.
      rewrite Get_miss by by apply (ordered_absent c r).
      exists c. split; [done|]. split; [by exists r|lia].
  - unfold GetOrSet. case_bool_decide as Hin.
    + rewrite <-Hr in Hin.
      destruct (Hhead key Hin Hg) as (v & r0 & -> & Hun).
      destruct (Get_oldest_ordered c key v r0 Ho Ht)
        as (c' & -> & Ho' & Ht' & Hk' & Hc' & _).
      exists c'. split; [done|]. split; [|lia].
      exists (r0 ++ [(key, v)]). unfold touch, Len. simpl.
      rewrite fmap_app, Hun, Hk', Hc'. done.
    + rewrite <-Hr in Hin.
      rewrite Get_miss by by apply (ordered_absent c r).
      cbn [mbind option_bind]. destruct (setter key) as [v [e|]]; simpl.
      * exists c. split; [done|]. split; [by exists r|lia].
      * destruct (Hinsert key v Hin) as (c' & -> & ? & ?). by exists c'.
  - unfold Set_. case_bool_decide as Hin; rewrite <-Hr in Hin.
    + rewrite (ordered_present c r key Ho Hin).
      exists c. split; [done|]. split; [by exists r|lia].
    + assert (Has key c = false) as ->.
      { unfold Has. apply (ordered_absent c r) in Hin; [|done].
        apply scan_None in Hin. by rewrite Hin. }
      destruct (Hinsert key val Hin) as (c' & -> & ? & ?). by exists c'.
  - case_bool_decide as Hin; rewrite <-Hr in Hin.
    + destruct (Hhead key Hin Hg) as (v & r0 & -> & Hun).
      destruct (Replace_oldest_ordered c key v val r0 Ho Ht)
        as (c' & -> & Ho' & Ht' & Hk' & Hc' & _).
      exists c'. split; [done|]. split; [|lia].
      exists (r0 ++ [(key, val)]). unfold touch, Len. simpl.
      rewrite fmap_app, Hun, Hk', Hc'. done.
    + apply (ordered_absent c r) in Hin as Hin'; [|done].
      unfold Replace. apply scan_None in Hin'. rewrite Hin'.
      destruct (Hinsert key val Hin) as (c' & -> & ? & ?). by exists c'.
  - destruct (decide (key ∈ r.*1)) as [Hin|Hin].
    + destruct (Hhead key Hin Hg) as (v & r0 & -> & Hun).
      destruct (Remove_oldest_ordered c key v r0 Ho)
        as (c' & -> & Ho' & Ht' & Hl' & Hc' & _).
      exists c'. split; [done|]. split; [|lia].
      exists r0. simpl. rewrite Hun, Hc'. split_and!; [done..|lia].
    + apply (ordered_absent c r) in Hin as Hin'; [|done].
      unfold Remove. apply scan_None in Hin'. rewrite Hin'.
      exists c. split; [done|]. split; [|lia].
      exists r. rewrite untouch_absent by by rewrite <-Hr. done.
  - destruct Ho as (Ha & _). unfold RemoveAll.
    destruct (evictAll_fields (keys c) 0 c) as (c1 & -> & Hc1 & _);
      [destruct Ha; lia|].
    cbn [mbind option_bind]. eexists. split; [done|].
    split; [|simpl; lia].
    exists []. split; [apply ordered_Reset|].
    unfold Len. simpl. rewrite Hc1. split_and!; [done..|lia].
  - exists (Reset c). split; [done|].
    split; [|simpl; lia].
    exists []. split; [apply ordered_Reset|].
    unfold Len. simpl. split_and!; [done..|lia].
  - done.
Qed.

Lemma run_stands_for {E} (os : list (op K V E)) : ∀ c ρ,
  stands_for c ρ → gentle_run os ρ →
  tick c + Z.of_nat (length os) < MaxUint64 →
  ∃ c', run os c = Some c' ∧
        stands_for c' (foldl (λ r o, touch_step o r) ρ os) ∧
        tick c' ≤ tick c + Z.of_nat (length os).
Proof.
  induction os as [|o os IH]; intros c ρ Hs Hg Ht.
  - exists c. simpl. split_and!; [done..|lia].
  - destruct Hg as [Hg Hgs]. cbn [run foldl length] in *.
    destruct (step_stands_for o c ρ Hs Hg) as (c1 & -> & Hs1 & Ht1); [lia|].
    cbn [mbind option_bind].
    destruct (IH c1 _ Hs1 Hgs) as (c' & -> & ? & ?); [lia|].
    exists c'. split_and!; [done..|lia].
Qed.

Lemma New_stands_for capacity cb :
  0 < capacity →
  stands_for (Lru (K:=K) (V:=V) [] [] [] 0 capacity cb [])
    (Recency capacity []).
Proof.
  intros Hpos. exists []. unfold ordered, aligned, Len, MaxUint64. simpl.
  split_and!; [done|done|apply NoDup_nil_2|lia|lia|done|done|done|done|lia].
Qed.

Lemma stands_for_iterators c ρ :
  stands_for c ρ →
  ascKeys c = Some (order ρ) ∧ descKeys c = Some (reverse (order ρ)).
Proof.
  intros (r & Ho & Hr & _). unfold ascKeys, descKeys.
  rewrite (IterateAsc_ordered c r Ho), (IterateDesc_ordered c r Ho).
  simpl. by rewrite fmap_reverse, Hr.
Qed.

(** The engine is an LRU cache as long as no call touches or removes an
    entry other than the least recently touched one and the capacity is
    not changed: every such sequence of calls returns, the ascending
    iterator yields the live keys in the order of their most recent
    touch, and the descending one the reverse. *)
Lemma gentle_calls_keep_recency_order {E} (capacity : Z) (cb : bool)
    (os : list (op K V E)) :
  0 < capacity → Z.of_nat (length os) < MaxUint64 →
  gentle_run os (Recency capacity []) →
  ∃ c, New capacity cb ≫= run os = Some c ∧
       ascKeys c = Some (touch_order capacity os) ∧
       descKeys c = Some (reverse (touch_order capacity os)).
Proof.
  intros Hpos Hlen Hg. unfold New.
  destruct (Z.ltb_spec capacity 0); [lia|]. cbn [mbind option_bind].
  destruct (run_stands_for os (Lru [] [] [] 0 capacity cb [])
              (Recency capacity [])) as (c & -> & Hs & _);
    [by apply New_stands_for|done|simpl; lia|].
  exists c. split; [done|]. by apply stands_for_iterators.
Qed.

(** In a cache that keeps the recency window the least recently touched
    entry is the one whose tick is smallest. *)
Lemma ordered_smallest_tick c k v r :
  ordered c ((k, v) :: r) →
  ∃ j, keys c !! j = Some k ∧ vals c !! j = Some v ∧ smallest_tick j c.
Proof.
  intros Ho. destruct (ordered_slot c _ 0 k v Ho eq_refl) as (j & _ & _ & Hj).
  rewrite Z.add_0_r in Hj. apply lookup_slots in Hj as (Hk & Hv & Ht).
  exists j. split_and!; [done..|]. exists (tick c - Len c). split; [done|].
  intros j' u Hu. destruct Ho as (Ha & _ & _ & Hp).
  assert (u ∈ (stamped (tick c - Len c) ((k, v) :: r)).*2) as Hin.
  { rewrite <-Hp, slots_lastUse by done. by apply list_elem_of_lookup_2 in Hu. }
  rewrite stamped_ticks in Hin.
  apply list_elem_of_fmap in Hin as (i & -> & _). lia.
Qed.

(** A full cache that keeps the recency window evicts, on the insertion
    of a new key, exactly the entry whose tick is smallest. *)
Lemma full_cache_evicts_smallest_tick c r key val :
  ordered c r → 0 < kcap c → Len c = kcap c → key ∉ keys c →
  tick c + 1 < MaxUint64 →
  ∃ j k v c',
    keys c !! j = Some k ∧ vals c !! j = Some v ∧ smallest_tick j c ∧
    append key val c = Some c' ∧ Len c' = kcap c ∧
    keys c' ≡ₚ delete j (keys c) ++ [key] ∧
    notified c' = notified c ++ (if evicted c then [(k, v)] else []).
Proof.
  intros Ho Hpos Hfull Hk Ht.
  pose proof (ordered_length c r Ho) as Hlen.
  destruct r as [|[k v] r]; [unfold Len in *; simpl in Hlen; lia|].
  destruct (ordered_smallest_tick c k v r Ho) as (j & Hkj & Hvj & Hsm).
  exists j, k, v.
  assert (key ∉ ((k, v) :: r).*1) as Hk'
    by by rewrite <-(ordered_keys c _ Ho).
  destruct (append_ordered key val c _ Ho) as
    (c' & Happ & Ho' & _ & Hc' & _ & _ & Hn'); [lia|done..|].
  exists c'.
  destruct (Z.geb_spec (Len c) (kcap c)); [|lia]. cbn [tail take] in *.
  pose proof (ordered_length c' _ Ho') as Hlen'.
  rewrite length_app in Hlen'. simpl in Hlen, Hlen'.
  split_and!; [done..|unfold Len in *; lia| |done].
  rewrite (ordered_keys c' _ Ho'), fmap_app. simpl.
  apply Permutation_app_tail.
  pose proof (ordered_keys c _ Ho) as Hp. simpl in Hp.
  rewrite (delete_Permutation _ _ _ Hkj) in Hp.
  by apply Permutation_cons_inv in Hp.
Qed.

(** [Set], [Replace] and [GetOrSet] insert an absent key through
    [append]. *)
Lemma step_inserts {E} (o : op K V E) key val c :
  inserts o key val → key ∉ keys c → step o c = append key val c.
Proof.
  intros Hi Hk.
  destruct o as [k|k|k setter|k v|k v|k| | |capacity]; try done;
    cbn [step inserts] in *.
  - destruct Hi as [-> Hs]. unfold GetOrSet. rewrite Get_miss by done.
    cbn [mbind option_bind]. rewrite Hs. by destruct (append key val c).
  - destruct Hi as [-> ->]. rewrite Set_absent by done.
    by destruct (append key val c).
  - destruct Hi as [-> ->]. unfold Replace.
    apply scan_None in Hk. rewrite Hk. by destruct (append key val c).
Qed.

(** *** Recency ticks stay below the clock *)

Lemma ticks_below_clock_Forall c :
  ticks_below_clock c ↔ Forall (λ t, t < tick c) (lastUse c).
Proof. unfold ticks_below_clock. by rewrite Forall_lookup. Qed.

Lemma remove_below idx c c' (B : Z) :
  remove idx c = Some c' → Forall (λ t, t < B) (lastUse c) →
  Forall (λ t, t < B) (lastUse c') ∧ tick c' = tick c.
Proof.
  unfold remove. intros Hr Hall.
  set (e := (length (keys c) - 1)%nat) in *.
  destruct (keys c !! idx) as [key|]; [|done].
  cbn [mbind option_bind] in Hr.
  destruct (keys c !! e) as [ke|]; [|done].
  cbn [mbind option_bind] in Hr.
  destruct (vals c !! idx) as [val|]; [|done].
  cbn [mbind option_bind] in Hr.
  destruct (vals c !! e) as [ve|]; [|done].
  cbn [mbind option_bind] in Hr.
  destruct (lastUse c !! idx) as [ti|] eqn:Hti; [|done].
  cbn [mbind option_bind] in Hr.
  destruct (lastUse c !! e) as [te|] eqn:Hte; [|done].
  cbn [mbind option_bind] in Hr. injection Hr as <-.
  match goal with |- context [evict key val ?c1] =>
    destruct (evict_fields key val c1) as (_ & _ & -> & -> & _) end.
  split; [|done]. cbn [lastUse set_lastUse].
  apply Forall_take, Forall_insert; [apply Forall_insert; [done|]|].
  - by apply (Forall_lookup_1 _ _ _ _ Hall Hte).
  - by apply (Forall_lookup_1 _ _ _ _ Hall Hti).
Qed.

Lemma repair_below c : aligned c → ticks_below_clock (repair c).
Proof.
  intros [_ Hl]. apply ticks_below_clock_Forall. unfold repair, Len. simpl.
  apply Forall_fmap, Forall_seq. intros j Hj. simpl. lia.
Qed.

Lemma removeOldest_below c c' :
  aligned c → removeOldest c = Some c' → ticks_below_clock c →
  0 ≤ tick c →
  ticks_below_clock c' ∧ 0 ≤ tick c' ≤ Z.max (tick c) (Len c).
Proof.
  intros Ha Hr Hb Ht. unfold removeOldest in Hr.
  rewrite removeOldest_rec_S in Hr.
  destruct (decide (length (keys c) = 0)%nat) as [Hk|Hk].
  - injection Hr as <-. split; [done|lia].
  - destruct (find (oldestTick c) c) as [idx|].
    + apply ticks_below_clock_Forall in Hb.
      destruct (remove_below idx c c' (tick c) Hr Hb) as [Hb' Ht'].
      split; [|lia]. apply ticks_below_clock_Forall. by rewrite Ht'.
    + rewrite removeOldest_rec_repair in Hr by (destruct Ha; lia).
      pose proof (repair_below c Ha) as Hb'%ticks_below_clock_Forall.
      destruct (remove_below 0 (repair c) c' _ Hr Hb') as [Hb'' Ht'].
      split; [by apply ticks_below_clock_Forall; rewrite Ht'|].
      rewrite Ht'. simpl. unfold Len. lia.
Qed.

Lemma pushed_below key val c :
  ticks_below_clock c → 0 ≤ tick c → tick c + 1 < MaxUint64 →
  ticks_below_clock
    (Lru (keys c ++ [key]) (vals c ++ [val]) (lastUse c ++ [tick c])
       (u64 (tick c + 1)) (kcap c) (evicted c) (notified c)).
Proof.
  intros Hb%ticks_below_clock_Forall Ht0 Ht. apply ticks_below_clock_Forall.
  rewrite u64_small by (unfold MaxUint64 in *; lia). simpl.
  apply Forall_app. split; [|apply Forall_singleton; lia].
  eapply Forall_impl; [done|]. simpl. lia.
Qed.

Lemma stamped_below (vs : list V) i c :
  ticks_below_clock c → 0 ≤ tick c → tick c + 1 < MaxUint64 →
  ticks_below_clock
    (Lru (keys c) vs (<[i:=tick c]> (lastUse c)) (u64 (tick c + 1))
       (kcap c) (evicted c) (notified c)).
Proof.
  intros Hb%ticks_below_clock_Forall Ht0 Ht. apply ticks_below_clock_Forall.
  rewrite u64_small by (unfold MaxUint64 in *; lia). simpl.
  apply Forall_insert; [|lia]. eapply Forall_impl; [done|]. simpl. lia.
Qed.

Lemma append_below key val c c' :
  wf c → ticks_below_clock c → 0 ≤ tick c →
  Z.max (tick c) (kcap c) + 1 < MaxUint64 →
  append key val c = Some c' →
  ticks_below_clock c' ∧ 0 ≤ tick c' ≤ Z.max (tick c) (kcap c) + 1.
Proof.
  intros (Ha & Hle & Hpos) Hb Ht0 Ht Happ.
  destruct (Z.geb_spec (Len c) (kcap c)) as [Hfull|Hroom].
  - destruct (removeOldest_aligned c Ha) as (c1 & Hr & Ha1 & Hl1 & Hc1);
      [unfold Len in *; lia|].
    destruct (removeOldest_below c c1 Ha Hr Hb Ht0) as [Hb1 Ht1].
    rewrite (append_full key val c c1) in Happ;
      [|lia|done|unfold Len in *; lia|unfold MaxUint64 in *; lia].
    injection Happ as <-. split; [apply pushed_below; [done|lia|lia]|].
    simpl. rewrite u64_small by (unfold MaxUint64 in *; lia). lia.
  - rewrite append_room in Happ; [|lia|unfold MaxUint64 in *; lia].
    injection Happ as <-. split; [apply pushed_below; [done|lia|lia]|].
    simpl. rewrite u64_small by (unfold MaxUint64 in *; lia). lia.
Qed.

Lemma ticks_below_clock_evict key val c :
  ticks_below_clock c → ticks_below_clock (evict key val c).
Proof. unfold evict. by destruct (evicted c). Qed.

(** Every call but [Resize] keeps the recency ticks below the clock, as
    long as the clock is away from the end of the [uint64] range. *)
Lemma step_below {E} (o : op K V E) c c' :
  wf c → ticks_below_clock c → 0 ≤ tick c →
  Z.max (tick c) (kcap c) + 1 < MaxUint64 → keeps_capacity o →
  step o c = Some c' →
  ticks_below_clock c' ∧ 0 ≤ tick c' ≤ Z.max (tick c) (kcap c) + 1.
Proof.
  intros Hwf Hb Ht0 Ht Ho Hstep. pose proof Hwf as ([Hv Hl] & _ & _).
  assert (tick c ≠ MaxUint64) as Hne by lia.
  assert (∀ key val c1, append key val c = Some c1 →
    ticks_below_clock c1 ∧ 0 ≤ tick c1 ≤ Z.max (tick c) (kcap c) + 1)
    as Happend by (intros; by eapply append_below).
  assert (∀ key, scan key c = None → Get key c = Some (zeroV, false, c))
    as Hmiss by (intros key Hs; apply Get_miss; by apply scan_None).
  assert (∀ key i, scan key c = Some i →
    ∃ v, vals c !! i = Some v ∧ (i < length (lastUse c))%nat) as Hslot.
  { intros key i Hs%scan_Some%lookup_lt_Some.
    destruct (lookup_lt_is_Some_2 (vals c) i) as [v Hvi]; [lia|].
    exists v. split; [done|lia]. }
  destruct o as [key|key|key setter|key val|key val|key| | |capacity];
    cbn [step] in Hstep; try done.
  - injection Hstep as <-. split; [done|lia].
  - destruct (scan key c) as [i|] eqn:Hs.
    + destruct (Hslot key i Hs) as (v & Hvi & Hi).
      rewrite (Get_hit key c i v) in Hstep by done.
      injection Hstep as <-. split; [by apply stamped_below; [|lia..]|].
      simpl. rewrite u64_small by (unfold MaxUint64 in *; lia). lia.
    + rewrite Hmiss in Hstep by done. injection Hstep as <-.
      split; [done|lia].
  - unfold GetOrSet in Hstep. destruct (scan key c) as [i|] eqn:Hs.
    + destruct (Hslot key i Hs) as (v & Hvi & Hi).
      rewrite (Get_hit key c i v) in Hstep by done.
      injection Hstep as <-. split; [by apply stamped_below; [|lia..]|].
      simpl. rewrite u64_small by (unfold MaxUint64 in *; lia). lia.
    + rewrite Hmiss in Hstep by done. cbn [mbind option_bind] in Hstep.
      destruct (setter key) as [v [e|]].
      * injection Hstep as <-. split; [done|lia].
      * destruct (append key v c) as [c1|] eqn:Happ; [|done].
        injection Hstep as <-. by apply (Happend key v).
  - unfold Set_ in Hstep. destruct (Has key c).
    + injection Hstep as <-. split; [done|lia].
    + destruct (append key val c) as [c1|] eqn:Happ; [|done].
      injection Hstep as <-. by apply (Happend key val).
  - destruct (scan key c) as [i|] eqn:Hs.
    + destruct (Hslot key i Hs) as (v & Hvi & Hi).
      rewrite (Replace_hit key val c i v) in Hstep by done.
      injection Hstep as <-.
      split; [by apply ticks_below_clock_evict, stamped_below; [|lia..]|].
      match goal with |- context [evict key v ?c1] =>
        destruct (evict_fields key v c1) as (_ & _ & _ & -> & _) end.
      simpl. rewrite u64_small by (unfold MaxUint64 in *; lia). lia.
    + unfold Replace in Hstep. rewrite Hs in Hstep.
      destruct (append key val c) as [c1|] eqn:Happ; [|done].
      injection Hstep as <-. by apply (Happend key val).
  - unfold Remove in Hstep. destruct (scan key c) as [i|].
    + destruct (remove i c) as [c1|] eqn:Hr; [|done]. injection Hstep as <-.
      apply ticks_below_clock_Forall in Hb.
      destruct (remove_below i c c1 (tick c) Hr Hb) as [Hb' Ht'].
      split; [|lia]. apply ticks_below_clock_Forall. by rewrite Ht'.
    + injection Hstep as <-. split; [done|lia].
  - unfold RemoveAll in Hstep.
    destruct (evictAll 0 (keys c) c) as [c1|]; [|done]. injection Hstep as <-.
    split; [|simpl; lia]. by intros i t.
  - injection Hstep as <-. split; [|simpl; lia]. by intros i t.
Qed.

(** The invariant of the data model holds in every state reached
    without [Resize], within [2^64 - 2 - capacity] calls. *)
Lemma run_below {E} (os : list (op K V E)) (capacity : Z) (cb : bool) :
  0 < capacity → Forall keeps_capacity os →
  capacity + Z.of_nat (length os) + 1 < MaxUint64 →
  ∃ c, New capacity cb ≫= run os = Some c ∧ ticks_below_clock c.
Proof.
  intros Hpos Hos Hlen.
  destruct (New_wf capacity cb Hpos) as (c0 & Hnew & Hwf0 & Hc0).
  rewrite Hnew. cbn [mbind option_bind].
  assert (ticks_below_clock c0 ∧ tick c0 = 0) as [Hb0 Ht0].
  { unfold New in Hnew. destruct (capacity <? 0); [done|].
    injection Hnew as <-. split; [by intros i t|done]. }
  assert (∀ (n : Z) c, wf c → kcap c = capacity → ticks_below_clock c →
    0 ≤ n → 0 ≤ tick c ≤ capacity + n →
    capacity + n + Z.of_nat (length os) + 1 < MaxUint64 →
    ∃ c', run os c = Some c' ∧ ticks_below_clock c') as Hrun.
  { clear c0 Hnew Hwf0 Hc0 Hb0 Ht0 Hlen.
    induction os as [|o os IH]; intros n c Hwf Hc Hb Hn0 Ht Hn.
    - by exists c.
    - inversion Hos as [|? ? Ho Hos']; subst. cbn [run length] in *.
      assert (positive_resize o) as Hpr by by destruct o.
      destruct (step_wf o c Hwf Hpr)
        as (c1 & Hstep & Hwf1).
      destruct (step_below o c c1 Hwf Hb) as [Hb1 Ht1]; [lia|lia|done..|].
      assert (kcap c1 = kcap c) as Hc1.
      { destruct o as [key|key|key setter|key val|key val|key| | |cap'];
          cbn [step] in Hstep; try done.
        - by injection Hstep as <-.
        - destruct (Get_wf key c Hwf) as (? & ? & Hg & _ & ?).
          rewrite Hg in Hstep. by injection Hstep as <-.
        - destruct (GetOrSet_wf key setter c Hwf)
            as (? & ? & Hg & _ & ?).
          rewrite Hg in Hstep. by injection Hstep as <-.
        - destruct (Set_wf key val c Hwf)
            as (? & ? & Hg & _ & ?).
          rewrite Hg in Hstep. by injection Hstep as <-.
        - destruct (Replace_wf key val c Hwf)
            as (? & ? & Hg & _ & ?).
          rewrite Hg in Hstep. by injection Hstep as <-.
        - destruct (Remove_wf key c Hwf) as (? & ? & Hg & _ & ?).
          rewrite Hg in Hstep. by injection Hstep as <-.
        - destruct (RemoveAll_wf c Hwf) as (? & Hg & _ & ?).
          rewrite Hg in Hstep. by injection Hstep as <-.
        - by injection Hstep as <-. }
      rewrite Hstep. cbn [mbind option_bind].
      apply (IH Hos' (n + 1)); [done|lia|done|lia|lia|lia]. }
  apply (Hrun 0 c0); [done..|lia|lia|lia].
Qed.

End EngineTheory.

(** * The claims *)

Section Claims.
Context {K V : Type} `{EqDecision K}.
Context (zeroK : K) (zeroV : V) (growslice : Z → Z → Z).

Local Abbreviation Resize := (Resize zeroK zeroV).
Local Abbreviation step := (step zeroK zeroV growslice).
Local Abbreviation run := (run zeroK zeroV growslice).
Local Abbreviation calls := (list (op K V unit)).

(** The part of the capacity bound that holds of the code.  On a
    cache of positive capacity every sequence of [Set], [Replace] and
    [GetOrSet] calls returns and leaves at most [capacity] entries.  If
    moreover no call of the sequence touched an entry other than the
    least recently touched one (so, in particular, if every call
    inserted an absent key), and the cache is full, then the next
    insertion of an absent key, through any of the three methods,
    removes exactly one entry, the one whose recency tick is smallest,
    reports it to the callback and inserts the new key. *)
Theorem capacity_bound_and_gentle_eviction {E} (capacity : Z) (cb : bool)
    (os : list (op K V E)) :
  0 < capacity → Forall inserting os →
  ∃ c, New capacity cb ≫= run os = Some c ∧ Len c ≤ capacity ∧
    (gentle_run os (Recency capacity []) →
     Z.of_nat (length os) + 1 < MaxUint64 → Len c = capacity →
     ∀ (o : op K V E) key val, inserts o key val → key ∉ keys c →
     ∃ j k v c',
       keys c !! j = Some k ∧ vals c !! j = Some v ∧ smallest_tick j c ∧
       step o c = Some c' ∧ Len c' = capacity ∧
       keys c' ≡ₚ delete j (keys c) ++ [key] ∧
       notified c' = notified c ++ (if evicted c then [(k, v)] else [])).
Proof.
  intros Hpos Hos.
  destruct (run_inserting zeroK zeroV growslice os capacity cb Hpos Hos)
    as (c & Hrun & (_ & Hle & _) & Hc).
  exists c. split; [done|]. split; [lia|].
  intros Hg Hlen Hfull o key val Hi Hk.
  unfold New in Hrun. destruct (Z.ltb_spec capacity 0); [lia|].
  cbn [mbind option_bind] in Hrun.
  destruct (run_stands_for zeroK zeroV growslice os _ _
              (New_stands_for capacity cb Hpos) Hg)
    as (c' & Hrun' & (r & Ho & _) & Ht); [simpl; lia|].
  rewrite Hrun in Hrun'. injection Hrun' as <-. simpl in Ht.
  rewrite (step_inserts zeroK zeroV growslice o key val c Hi Hk).
  rewrite <-Hc in *.
  apply (full_cache_evicts_smallest_tick zeroK zeroV growslice c r);
    [done..|lia].
Qed.

(** C5, as the code has it.  The claim: a [Resize] to a capacity that
    is at least the occupancy changes neither the clock nor any
    recency tick.  The code: such a [Resize], when it changes the
    capacity at all, keeps the keys and their recency ticks and sets
    the clock to 0, whatever it was. *)
Theorem C5_Resize_keeps_ticks_zeroes_clock (capacity : Z) (c : lru K V) :
  kcap c ≠ capacity → Len c ≤ capacity →
  ∃ c', Resize capacity c = Some c' ∧
        keys c' = keys c ∧ lastUse c' = lastUse c ∧ tick c' = 0.
Proof.
  intros Hne Hle. eexists. split; [by apply Resize_fits|]. done.
Qed.



(** C8, amended.  When the key is absent and the producer returns an
    error, [GetOrSet] returns the value and the error the producer
    returned, and the cache is exactly as it was. *)
Theorem C8_GetOrSet_producer_failure {E} (key : K)
    (setter : K → V * option E) (c : lru K V) (v : V) (e : E) :
  key ∉ keys c → setter key = (v, Some e) →
  GetOrSet zeroK zeroV growslice key setter c = Some (v, Some e, c).
Proof.
  intros Hk Hs. unfold GetOrSet.
  rewrite Get_miss by done. cbn [mbind option_bind]. by rewrite Hs.
Qed.

End Claims.

(** ** On caches with [int] keys *)

(** C1 at a failing input.  The claim: a full cache evicts, on the
    next insertion, the live entry whose recency tick is smallest.  The
    code: capacity 2, keys 1 and 2 inserted, key 1 replaced twice; the
    cache is full, within its capacity, and key 2, in slot 1, is the
    only entry with the smallest recency tick.  [removeOldest] looks
    for the tick 4 - 2 = 2, which no slot carries, renumbers the slots
    in storage order and removes slot 0: the insertion of key 3 evicts
    key 1, the entry touched last, and key 2 stays. *)
Theorem C1_full_cache_evicts_last_touched :
  let full := Lru [1; 2] [12; 20] [3; 1] 4 2 true [(1, 10); (1, 11)] in
  Forall inserting replace_first_twice ∧
  New 2 true ≫= runInt replace_first_twice = Some full ∧
  Len full = kcap full ∧
  (∀ j, smallest_tick j full → keys full !! j = Some 2) ∧
  smallest_tick 1 full ∧
  find (oldestTick full) full = None ∧
  stepInt (OpSet 3 30) full
  = Some (Lru [2; 3] [20; 30] [1; 2] 3 2 true
            [(1, 10); (1, 11); (1, 12)]).
Proof.
  split_and!; try by vm_compute.
  - repeat constructor.
  - intros j (t & Ht & Hmin). destruct j as [|[|j]]; [|done|done].
    injection Ht as <-. specialize (Hmin 1%nat 1 eq_refl). lia.
  - exists 1. split; [done|]. intros [|[|j]] u Hu; [| |done].
    + injection Hu as <-. lia.
    + injection Hu as <-. lia.
Qed.

(** The capacity bound at capacity 2 with keys 1 and 2 inserted: the
    insertion of key 3 evicts key 1. *)
Lemma capacity_bound_and_gentle_eviction_example :
  let os : list (op Z Z unit) := [OpSet 1 10; OpSet 2 20] in
  0 < 2 ∧ Forall inserting os ∧
  ∃ c, New 2 true ≫= runInt os = Some c ∧ Len c ≤ 2 ∧
       ∃ j k v c',
         keys c !! j = Some k ∧ vals c !! j = Some v ∧ smallest_tick j c ∧
         stepInt (OpSet 3 30) c = Some c' ∧ Len c' = 2 ∧
         keys c' ≡ₚ delete j (keys c) ++ [3] ∧
         notified c' = notified c ++ (if evicted c then [(k, v)] else []).
Proof.
  assert (Forall inserting [OpSet 1 10; OpSet 2 20 : op Z Z unit]) as Hos
    by repeat constructor.
  split; [lia|]. split; [done|].
  destruct (capacity_bound_and_gentle_eviction 0 0 growint 2 true
              [OpSet 1 10; OpSet 2 20 : op Z Z unit])
    as (c & Hrun & Hle & Hevict); [lia|done|].
  exists c. split; [done|]. split; [done|].
  vm_compute in Hrun. injection Hrun as <-.
  apply (λ Hg Hl Hf, Hevict Hg Hl Hf (OpSet 3 30) 3 30);
    [cbn; by split_and!|by vm_compute|by vm_compute|done|absent].
Defined.

(** C2 at a failing input.  The claim: after [Get], [Set] and [Replace]
    calls the ascending iterator yields the live keys in the order of
    their most recent touch, and the descending one the reverse.  The
    code: capacity 2, keys 1 and 2 inserted, key 2 read; the keys in
    touch order are 1, 2, the ascending iterator yields nothing and the
    descending one yields key 2 only. *)
Theorem C2_iterators_stop_after_a_read :
  let c := Lru [1; 2] [10; 20] [0; 2] 3 2 true [] in
  New 2 true ≫= runInt read_newest = Some c ∧
  touch_order 2 read_newest = [1; 2] ∧
  ascKeys c = Some [] ∧ descKeys c = Some [2].
Proof. by vm_compute. Qed.

(** C3.  Capacity 8, [Replace(k, v)] for [k] from 1 to 10: the eviction
    callback is called for key 1 and then for key 2, and for nothing
    else; [Len()] is 8; the ascending iterator yields 3, ..., 10. *)
Theorem C3_example :
  let c := Lru [8; 9; 3; 4; 5; 6; 7; 10] (replicate 8 ())
             [7; 8; 2; 3; 4; 5; 6; 9] 10 8 true [(1, ()); (2, ())] in
  New 8 true ≫= run 0 () growint example_calls = Some c ∧
  notified c = [(1, ()); (2, ())] ∧
  Len c = 8 ∧
  IterateAsc c = Some ((λ k, (k, ())) <$> [3; 4; 5; 6; 7; 8; 9; 10]).
Proof. by vm_compute. Qed.

(** C4 at its input.  The claim: capacity 5, keys 1 to 5 inserted in
    that order, [Resize(3)]: keys 1 and 2 are evicted, oldest first, and
    the ascending iterator then yields 3, 4, 5.  The code: the two
    evictions are as claimed, keys 3, 4 and 5 stay, but the clock is 0
    after the call and the ascending iterator yields nothing. *)
Theorem C4_Resize_shrink_empties_iterator :
  let c := Lru [5; 4; 3] [50; 40; 30] [4; 3; 2] 0 3 true [(1, 10); (2, 20)] in
  New 5 true ≫= runInt (fill5 ++ [OpResize 3]) = Some c ∧
  ascKeys c = Some [] ∧ descKeys c = Some [].
Proof. by vm_compute. Qed.

(** The failing input of C5: capacity 2, key 1 inserted, so that the
    clock is 1; after [Resize(3)] it is 0. *)
Lemma C5_Resize_witness :
  let c := Lru [1] [10] [0] 1 2 true [] in
  New 2 true ≫= runInt [OpSet 1 10] = Some c ∧
  kcap c ≠ 3 ∧ Len c ≤ 3 ∧
  ∃ c', Resize 0 0 3 c = Some c' ∧
        keys c' = keys c ∧ lastUse c' = lastUse c ∧ tick c' = 0.
Proof.
  split; [by vm_compute|]. split; [by vm_compute|]. split; [by vm_compute|].
  apply (C5_Resize_keeps_ticks_zeroes_clock 0 0); by vm_compute.
Defined.

(** C6 at a failing input.  The claim: in every reachable state every
    live slot's recency tick is below the clock.  The code: capacity 2,
    key 1 inserted, [Resize(3)]; slot 0 holds tick 0 and the clock
    is 0. *)
Theorem C6_tick_not_below_clock_after_Resize :
  let c := Lru [1] [10] [0] 0 3 true [] in
  New 2 true ≫= runInt [OpSet 1 10; OpResize 3] = Some c ∧
  ¬ ticks_below_clock c.
Proof.
  split; [by vm_compute|].
  intros Hc. specialize (Hc 0%nat 0 eq_refl). simpl in Hc. lia.
Qed.


(** C8 as stated fails: a producer may return a value of its own along
    with its error, and [GetOrSet] returns that value, not the zero
    value. *)
Lemma C8_counterexample :
  ¬ (∀ (c : lru Z Z) (key : Z) (setter : Z → Z * option unit) (e : unit),
       key ∉ keys c → (setter key).2 = Some e →
       GetOrSet 0 0 growint key setter c = Some (0, Some e, c)).
Proof.
  intros Hclaim.
  specialize (Hclaim (Lru [] [] [] 0 2 true []) 1 failing_producer ()
                (not_elem_of_nil _) eq_refl).
  assert (GetOrSet 0 0 growint 1 failing_producer (Lru [] [] [] 0 2 true [])
          = Some (5, Some (), Lru [] [] [] 0 2 true [])) as Hrun
    by by vm_compute.
  rewrite Hrun in Hclaim. discriminate Hclaim.
Qed.

(** The amended C8 at an empty cache and a producer that fails with the
    value 5. *)
Lemma C8_witness :
  (1 ∉ keys (Lru (K:=Z) (V:=Z) [] [] [] 0 2 true [])) ∧
  failing_producer 1 = (5, Some ()) ∧
  GetOrSet 0 0 growint 1 failing_producer (Lru [] [] [] 0 2 true [])
  = Some (5, Some (), Lru [] [] [] 0 2 true []).
Proof.
  split; [apply not_elem_of_nil|]. split; [done|].
  apply (C8_GetOrSet_producer_failure 0 0 growint);
    [apply not_elem_of_nil|done].
Defined.

(** C10.  [repair] numbers the slots 0, 1, ... in storage order,
    whatever their ticks were, and the ascending iterator then follows
    storage order.  Capacity 4, keys 1 to 4 inserted, key 2 (not the
    oldest) removed, key 5 and then key 6 inserted: the last insertion
    finds no slot with the oldest tick and repairs; afterwards the
    ascending iterator yields 4, 3, 5, 6 where the order of the most
    recent touches is 3, 4, 5, 6, and the next insertion evicts
    key 4. *)
Theorem C10_repair_follows_storage_order :
  (∀ (K V : Type) (c : lru K V),
     lastUse (repair c) = Z.of_nat <$> seq 0 (length (lastUse c))) ∧
  (∀ (K V : Type) (c : lru K V),
     aligned c → Len c < 2 ^ 64 → IterateAsc (repair c) = Iterate c) ∧
  let c5 := Lru [1; 4; 3; 5] [10; 40; 30; 50] [0; 3; 2; 4] 5 4 true
              [(2, 20)] in
  let c6 := Lru [5; 4; 3; 6] [50; 40; 30; 60] [3; 1; 2; 4] 5 4 true
              [(2, 20); (1, 10)] in
  New 4 true ≫= runInt remove_second = Some c5 ∧
  touch_order 4 remove_second = [1; 3; 4; 5] ∧
  find (oldestTick c5) c5 = None ∧
  ascKeys (repair c5) = Some (keys c5) ∧
  stepInt (OpSet 6 60) c5 = Some c6 ∧
  ascKeys c6 = Some [4; 3; 5; 6] ∧
  touch_order 4 (remove_second ++ [OpSet 6 60]) = [3; 4; 5; 6] ∧
  (notified <$> stepInt (OpSet 7 70) c6)
  = Some [(2, 20); (1, 10); (4, 40)].
Proof.
  split; [done|]. split; [intros; by apply IterateAsc_repair|].
  by vm_compute.
Qed.

(** The second component of C10 at the cache of its example. *)
Lemma C10_witness :
  let c5 := Lru [1; 4; 3; 5] [10; 40; 30; 50] [0; 3; 2; 4] 5 4 true
              [(2, 20)] in
  aligned c5 ∧ Len c5 < 2 ^ 64 ∧ IterateAsc (repair c5) = Iterate c5.
Proof.
  split; [by vm_compute|]. split; [by vm_compute|].
  destruct C10_repair_follows_storage_order as (_ & Hasc & _).
  apply Hasc; by vm_compute.
Defined.

(** The recency theorem at work: capacity 2, keys 1 and 2 inserted, the
    older key 1 read, key 3 inserted. *)
Example gentle_calls_example :
  let os : list (op Z Z unit) :=
    [OpSet 1 10; OpSet 2 20; OpGet 1; OpSet 3 30] in
  gentle_run os (Recency 2 []) ∧
  ∃ c, New 2 true ≫= runInt os = Some c ∧
       ascKeys c = Some (touch_order 2 os) ∧
       descKeys c = Some (reverse (touch_order 2 os)).
Proof.
  assert (gentle_run [OpSet 1 10; OpSet 2 20; OpGet 1; OpSet 3 30 : op Z Z unit]
            (Recency 2 [])) as Hg.
  { cbn. split_and!; try done. }
  split; [done|].
  apply (gentle_calls_keep_recency_order 0 0 growint); [lia|by vm_compute|done].
Qed.

(** * Further properties of the engine *)

Section Operations.
Context {K V : Type} `{EqDecision K}.
Context (zeroK : K) (zeroV : V) (growslice : Z → Z → Z).

Local Abbreviation lru := (lru K V).
Local Abbreviation remove := (remove zeroK zeroV).
Local Abbreviation removeOldest_rec := (removeOldest_rec zeroK zeroV).
Local Abbreviation removeOldest := (removeOldest zeroK zeroV).
Local Abbreviation append := (append zeroK zeroV growslice).
Local Abbreviation Get := (Get zeroV).
Local Abbreviation GetOrSet := (GetOrSet zeroK zeroV growslice).
Local Abbreviation Set_ := (Set_ zeroK zeroV growslice).
Local Abbreviation Replace := (Replace zeroK zeroV growslice).
Local Abbreviation Remove := (Remove zeroK zeroV).
Local Abbreviation shrink := (shrink zeroK zeroV).
Local Abbreviation Resize := (Resize zeroK zeroV).
Local Abbreviation step := (step zeroK zeroV growslice).
Local Abbreviation run := (run zeroK zeroV growslice).

Implicit Types (c : lru) (key : K) (val : V) (t : Z) (i idx n : nat).

(** ** What one call does to the entries *)

Lemma entries_slots c : aligned c → (slots c).*1 = entries c.
Proof.
  intros [Hv Hl]. unfold slots, entries. apply fst_zip.
  rewrite length_zip_with. lia.
Qed.

Lemma entries_keys c : aligned c → (entries c).*1 = keys c.
Proof. intros [Hv Hl]. unfold entries. apply fst_zip. lia. Qed.

Lemma length_entries c : aligned c → length (entries c) = length (keys c).
Proof. intros [Hv Hl]. unfold entries. rewrite length_zip_with. lia. Qed.

Lemma lookup_entries c i k v :
  entries c !! i = Some (k, v) ↔ keys c !! i = Some k ∧ vals c !! i = Some v.
Proof.
  unfold entries. rewrite lookup_zip_with_Some. split.
  - by intros (k' & v' & [= -> ->] & ? & ?).
  - intros [? ?]. by exists k, v.
Qed.

Lemma remove_entries idx c k v :
  aligned c → entries c !! idx = Some (k, v) →
  ∃ c', remove idx c = Some c' ∧ aligned c' ∧
        entries c' ≡ₚ delete idx (entries c) ∧
        length (keys c') = (length (keys c) - 1)%nat ∧
        tick c' = tick c ∧ kcap c' = kcap c ∧ evicted c' = evicted c ∧
        notified c' = notified c ++ (if evicted c then [(k, v)] else []).
Proof.
  intros Ha [Hk Hv]%lookup_entries.
  destruct (remove_slots zeroK zeroV idx c k v Ha Hk Hv)
    as (c' & Hr & Ha' & Hs & Hrest).
  exists c'. split; [done|]. split; [done|]. split; [|done].
  rewrite <-(entries_slots c'), <-(entries_slots c) by done.
  by rewrite Hs, list_fmap_delete.
Qed.

Lemma entries_repair c : entries (repair c) = entries c.
Proof. done. Qed.

(** [removeOldest] on a non-empty cache takes one of the entries out and
    reports that entry, whatever the recency ticks are. *)
Lemma removeOldest_entries c :
  aligned c → length (keys c) ≠ 0%nat →
  ∃ c' idx k v,
    removeOldest c = Some c' ∧ entries c !! idx = Some (k, v) ∧
    aligned c' ∧ entries c' ≡ₚ delete idx (entries c) ∧
    length (keys c') = (length (keys c) - 1)%nat ∧
    kcap c' = kcap c ∧ evicted c' = evicted c ∧
    notified c' = notified c ++ (if evicted c then [(k, v)] else []).
Proof.
  intros Ha Hne. pose proof Ha as [Hv Hl].
  unfold removeOldest. rewrite removeOldest_rec_S, decide_False by done.
  assert (∀ idx, (idx < length (keys c))%nat →
          ∃ k v, entries c !! idx = Some (k, v)) as Hslot.
  { intros idx Hi.
    destruct (lookup_lt_is_Some_2 (keys c) idx) as [k Hk]; [lia|].
    destruct (lookup_lt_is_Some_2 (vals c) idx) as [v Hvi]; [lia|].
    exists k, v. by apply lookup_entries. }
  destruct (find (oldestTick c) c) as [idx|] eqn:Hf.
  - apply find_Some, lookup_lt_Some in Hf.
    destruct (Hslot idx) as (k & v & Hkv); [lia|].
    destruct (remove_entries idx c k v Ha Hkv)
      as (c' & Hr & ? & ? & ? & _ & ? & ? & ?).
    by exists c', idx, k, v.
  - rewrite removeOldest_rec_repair by lia.
    destruct (Hslot 0%nat) as (k & v & Hkv); [lia|].
    destruct (remove_entries 0 (repair c) k v)
      as (c' & Hr & ? & ? & ? & _ & ? & ? & ?); [|done|].
    { unfold aligned. simpl. rewrite length_fmap, length_seq. lia. }
    by exists c', 0%nat, k, v.
Qed.

(** The general effect of an insertion: with room left nothing is
    evicted; a full cache loses exactly one of its entries, which is
    reported; the new entry goes to the last slot. *)
Lemma append_entries key val c :
  wf c →
  ∃ c' es ev,
    append key val c = Some c' ∧ wf c' ∧ kcap c' = kcap c ∧
    evicted c' = evicted c ∧
    entries c' = es ++ [(key, val)] ∧
    notified c' = notified c ++ (if evicted c then ev else []) ∧
    ((Len c < kcap c ∧ es = entries c ∧ ev = []) ∨
     (Len c = kcap c ∧
      ∃ idx kv, entries c !! idx = Some kv ∧
                es ≡ₚ delete idx (entries c) ∧ ev = [kv])).
Proof.
  intros Hwf. pose proof Hwf as (Ha & Hle & Hpos).
  destruct (append_wf zeroK zeroV growslice key val c Hwf)
    as (c' & Happ & Hwf' & Hc').
  exists c'. rewrite append_eq in Happ.
  assert (∀ c1, aligned c1 →
    entries (set_lastUse
      (lastUse (nextTick (set_vals (vals c1 ++ [val])
                            (push_key growslice key c1))).2 ++
       [(nextTick (set_vals (vals c1 ++ [val])
                     (push_key growslice key c1))).1])
      (nextTick (set_vals (vals c1 ++ [val])
                   (push_key growslice key c1))).2)
    = entries c1 ++ [(key, val)] ∧
    evicted (nextTick (set_vals (vals c1 ++ [val])
                         (push_key growslice key c1))).2 = evicted c1 ∧
    notified (nextTick (set_vals (vals c1 ++ [val])
                          (push_key growslice key c1))).2 = notified c1)
    as Hpush.
  { intros c1 [Hv1 Hl1].
    destruct (nextTick_fields (set_vals (vals c1 ++ [val])
                                 (push_key growslice key c1)))
      as (Ek & Ev & _ & Ecb & En & _).
    split; [|by rewrite Ecb, En].
    unfold entries. cbn [keys vals set_lastUse]. rewrite Ek, Ev.
    unfold push_key. cbn [keys vals set_vals set_keys].
    by rewrite zip_with_app. }
  destruct (Z.geb_spec (Len c) (kcap c)) as [Hfull|Hroom].
  - destruct (removeOldest_entries c Ha) as
      (c1 & idx & k & v & Hr & Hkv & Ha1 & He1 & _ & _ & Hcb1 & Hn1);
      [unfold Len in *; lia|].
    rewrite Hr in Happ. cbn [mbind option_bind] in Happ.
    apply (inj Some) in Happ as <-. destruct (Hpush c1 Ha1) as (He & Hcb & Hn).
    exists (entries c1), [(k, v)]. split; [by rewrite append_eq, Z.geb_leb,
      (proj2 (Z.leb_le _ _) Hfull), Hr|].
    split_and!; [done|done|cbn [evicted set_lastUse]; congruence|done| |].
    + cbn [notified set_lastUse]. rewrite Hn, Hn1. by destruct (evicted c).
    + right. split; [lia|]. by exists idx, (k, v).
  - cbn [mbind option_bind] in Happ. apply (inj Some) in Happ as <-.
    destruct (Hpush c Ha) as (He & Hcb & Hn).
    exists (entries c), []. split.
    { rewrite append_eq. destruct (Z.geb_spec (Len c) (kcap c)); [lia|done]. }
    split_and!; [done|done|done|done| |by left].
    cbn [notified set_lastUse]. rewrite Hn. by destruct (evicted c);
      rewrite app_nil_r.
Qed.

Lemma removeOldest_taken c :
  aligned c → length (keys c) ≠ 0%nat →
  ∃ c' kv,
    removeOldest c = Some c' ∧ aligned c' ∧
    entries c ≡ₚ kv :: entries c' ∧
    kcap c' = kcap c ∧ evicted c' = evicted c ∧
    notified c' = notified c ++ (if evicted c then [kv] else []).
Proof.
  intros Ha Hne.
  destruct (removeOldest_entries c Ha Hne)
    as (c' & idx & k & v & Hr & Hkv & Ha' & He & _ & ? & ? & ?).
  exists c', (k, v). split_and!; [done|done| |done|done|done].
  rewrite He. by apply delete_Permutation.
Qed.

(** An insertion in terms of what leaves and what stays: the entries
    before the call are the reported ones and the ones that stay. *)
Lemma append_taken key val c :
  wf c →
  ∃ c' es ev,
    append key val c = Some c' ∧ wf c' ∧ kcap c' = kcap c ∧
    evicted c' = evicted c ∧
    entries c' = es ++ [(key, val)] ∧ entries c ≡ₚ ev ++ es ∧
    notified c' = notified c ++ (if evicted c then ev else []) ∧
    length ev = if Len c <? kcap c then 0%nat else 1%nat.
Proof.
  intros Hwf. pose proof Hwf as (_ & Hle & _).
  destruct (append_entries key val c Hwf)
    as (c' & es & ev & Happ & ? & ? & ? & ? & ? &
        [(Hlt & -> & ->)|(Heq & idx & kv & Hkv & Hes & ->)]).
  - exists c', (entries c), []. split_and!; try done.
    by destruct (Z.ltb_spec (Len c) (kcap c)); [|lia].
  - exists c', es, [kv]. split_and!; try done.
    + simpl. rewrite Hes. by apply delete_Permutation.
    + by destruct (Z.ltb_spec (Len c) (kcap c)); [lia|].
Qed.

Lemma NoDup_submseteq_inv {A} (l k : list A) : k ⊆+ l → NoDup l → NoDup k.
Proof.
  intros [k' Hk]%submseteq_Permutation. rewrite Hk.
  by intros (? & _ & _)%NoDup_app.
Qed.

Lemma scan_bound key c i : scan key c = Some i → (i < length (keys c))%nat.
Proof. by intros ?%scan_Some%lookup_lt_Some. Qed.

Lemma scan_present key c : key ∈ keys c → ∃ i, scan key c = Some i.
Proof.
  intros Hin. destruct (scan key c) eqn:Hs; [by eexists|].
  by apply scan_None in Hs.
Qed.

Lemma Has_elem_of key c : Has key c = true ↔ key ∈ keys c.
Proof.
  unfold Has. destruct (scan key c) eqn:Hs.
  - split; [|done]. intros _. by eapply list_elem_of_lookup_2, scan_Some.
  - apply scan_None in Hs. split; [done|]. intros. by destruct Hs.
Qed.

Lemma scan_snoc key c ks :
  keys c = ks ++ [key] → key ∉ ks → scan key c = Some (length ks).
Proof.
  intros Hk Hn. unfold scan. rewrite Hk.
  assert (list_find (λ k, k = key) (ks ++ [key]) = Some (length ks, key))
    as ->; [|done].
  apply list_find_Some. split_and!; [|done|].
  - by rewrite list_lookup_middle.
  - intros j y Hj Hlt ->. apply Hn.
    rewrite lookup_app_l in Hj by done. by eapply list_elem_of_lookup_2.
Qed.

(** *** Reading *)

(** [Get] on a cache whose slices are aligned. *)
Lemma Get_effect key c :
  aligned c →
  ∃ v c', Get key c = Some (v, Has key c, c') ∧ aligned c' ∧
    keys c' = keys c ∧ vals c' = vals c ∧ kcap c' = kcap c ∧
    evicted c' = evicted c ∧ notified c' = notified c ∧
    match scan key c with
    | Some i => vals c !! i = Some v
    | None => v = zeroV ∧ c' = c
    end.
Proof.
  intros Ha. pose proof Ha as [Hv Hl]. rewrite Get_eq. unfold Has.
  destruct (scan key c) as [i|] eqn:Hs; [|by exists zeroV, c].
  apply scan_bound in Hs.
  destruct (nextTick_fields c) as (Ek & Ev & Ec & Ecb & En & Elen).
  unfold store. rewrite decide_True by lia. cbn [mbind option_bind].
  rewrite Ev. destruct (lookup_lt_is_Some_2 (vals c) i) as [v Hvi]; [lia|].
  rewrite Hvi. cbn [mbind option_bind]. eexists v, _. split; [done|].
  cbn [keys vals kcap evicted notified set_lastUse].
  split_and!; try done.
  unfold aligned. cbn [keys vals lastUse set_lastUse].
  rewrite Ek, Ev, length_insert. lia.
Qed.

(** [Replace] on a key that is in the cache. *)
Lemma Replace_effect key val c i :
  aligned c → scan key c = Some i →
  ∃ old c', Replace key val c = Some (true, c') ∧ aligned c' ∧
    vals c !! i = Some old ∧
    keys c' = keys c ∧ vals c' = <[i:=val]> (vals c) ∧
    kcap c' = kcap c ∧ evicted c' = evicted c ∧
    notified c' = notified c ++ (if evicted c then [(key, old)] else []).
Proof.
  intros Ha Hs. pose proof Ha as [Hv Hl]. rewrite Replace_eq, Hs.
  apply scan_bound in Hs.
  destruct (lookup_lt_is_Some_2 (vals c) i) as [old Hvi]; [lia|].
  rewrite Hvi. cbn [mbind option_bind]. cbv zeta.
  set (c1 := set_vals (<[i:=val]> (vals c)) c).
  destruct (nextTick_fields c1) as (Ek & Ev & Ec & Ecb & En & Elen).
  unfold store. rewrite decide_True by (rewrite Elen; simpl; lia).
  cbn [mbind option_bind]. eexists old, _. split; [done|].
  destruct (evict_fields key old
              (set_lastUse (<[i:=(nextTick c1).1]> (lastUse (nextTick c1).2))
                 (nextTick c1).2)) as (Fk & Fv & Fl & _ & Fc & Fcb).
  rewrite Fk, Fv, Fc, Fcb. cbn [keys vals kcap evicted set_lastUse].
  rewrite Ek, Ev, Ec, Ecb.
  split_and!; try done.
  - unfold aligned. rewrite Fk, Fv, Fl.
    cbn [keys vals lastUse set_lastUse].
    rewrite Ek, Ev, length_insert, Elen. subst c1. simpl.
    rewrite length_insert. lia.
  - rewrite evict_notified. cbn [evicted notified set_lastUse].
    by rewrite Ecb, En.
Qed.

(** [Remove] on a key that is in the cache. *)
Lemma Remove_effect key c i :
  aligned c → scan key c = Some i →
  ∃ v c', Remove key c = Some (true, c') ∧ aligned c' ∧
    entries c !! i = Some (key, v) ∧
    entries c ≡ₚ (key, v) :: entries c' ∧
    kcap c' = kcap c ∧ evicted c' = evicted c ∧
    notified c' = notified c ++ (if evicted c then [(key, v)] else []).
Proof.
  intros Ha Hs. pose proof Ha as [Hv Hl]. unfold Remove. rewrite Hs.
  pose proof (scan_bound _ _ _ Hs) as Hi. apply scan_Some in Hs.
  destruct (lookup_lt_is_Some_2 (vals c) i) as [v Hvi]; [lia|].
  assert (entries c !! i = Some (key, v)) as Hkv by by apply lookup_entries.
  destruct (remove_entries i c key v Ha Hkv)
    as (c' & -> & ? & He & _ & _ & ? & ? & ?).
  exists v, c'. split_and!; try done.
  rewrite He. by apply delete_Permutation.
Qed.

(** The loop of [RemoveAll] reports the entries in storage order. *)
Lemma evictAll_notified ks : ∀ i c,
  (i + length ks ≤ length (vals c))%nat →
  ∃ c', evictAll i ks c = Some c' ∧ kcap c' = kcap c ∧
        evicted c' = evicted c ∧
        notified c' =
          notified c ++ (if evicted c then zip ks (drop i (vals c)) else []).
Proof.
  induction ks as [|k ks IH]; intros i c Hlen.
  - exists c. split_and!; try done. by destruct (evicted c);
      rewrite app_nil_r.
  - simpl in Hlen |- *.
    destruct (lookup_lt_is_Some_2 (vals c) i) as [v Hvi]; [lia|].
    rewrite Hvi. cbn [mbind option_bind].
    destruct (evict_fields k v c) as (_ & Fv & _ & _ & Fc & Fcb).
    destruct (IH (S i) (evict k v c)) as (c' & -> & Hc & Hcb & Hn);
      [rewrite Fv; lia|].
    exists c'. rewrite Hc, Hcb, Hn, Fv, Fc, Fcb.
    split_and!; try done.
    rewrite (drop_S _ _ _ Hvi). unfold evict.
    destruct (evicted c); simpl; [|done].
    by rewrite <-app_assoc.
Qed.

Lemma Iterate_entries c : aligned c → Iterate c = Some (entries c).
Proof.
  intros Ha. unfold Iterate. apply mapM_Some, Forall2_same_length_lookup.
  split; [by rewrite length_seq, length_entries|].
  intros i j [k v] [-> _]%lookup_seq [Hk Hv]%lookup_entries. simpl.
  by rewrite Hk, Hv.
Qed.

(** The walk of the ordered iterators never reads out of range and
    yields live entries only. *)
Lemma walk_entries next c :
  aligned c → ∀ n t,
  ∃ l, walk next n t c = Some l ∧ (length l ≤ n)%nat ∧
       ∀ kv, kv ∈ l → kv ∈ entries c.
Proof.
  intros [Hv Hl] n. induction n as [|n IH]; intros t.
  - exists []. split_and!; [done|done|]. by intros kv ?%elem_of_nil.
  - simpl. destruct (find t c) as [idx|] eqn:Hf.
    + apply find_Some, lookup_lt_Some in Hf.
      destruct (lookup_lt_is_Some_2 (keys c) idx) as [k Hk]; [lia|].
      destruct (lookup_lt_is_Some_2 (vals c) idx) as [v Hvi]; [lia|].
      rewrite Hk, Hvi. cbn [mbind option_bind].
      destruct (IH (next t)) as (l & -> & Hlen & Hin).
      exists ((k, v) :: l). split_and!; [done|simpl; lia|].
      intros kv [->|?]%elem_of_cons; [|by apply Hin].
      eapply list_elem_of_lookup_2. by apply lookup_entries.
    + exists []. split_and!; [done|simpl; lia|]. by intros kv ?%elem_of_nil.
Qed.

(** *** What is reported and what stays *)

Lemma reports_nil c c' :
  evicted c' = evicted c → notified c' = notified c → reports c c' [].
Proof.
  intros Hcb Hn. split; [done|]. rewrite Hn.
  by destruct (evicted c); rewrite app_nil_r.
Qed.

Lemma accounted_same c c' :
  evicted c' = evicted c → notified c' = notified c →
  entries c' = entries c → accounted c c' [].
Proof.
  intros Hcb Hn He. split; [by apply reports_nil|]. split.
  - by intros kv ?%elem_of_nil.
  - intros kv Hkv. left. by rewrite He.
Qed.

Lemma accounted_Permutation c c' ev es :
  reports c c' ev → entries c ≡ₚ ev ++ es → (∀ kv, kv ∈ es → kv ∈ entries c') →
  accounted c c' ev.
Proof.
  intros Hr Hp Hes. split; [done|]. split.
  - intros kv Hkv. rewrite Hp. apply elem_of_app. by left.
  - intros kv Hkv. rewrite Hp in Hkv.
    apply elem_of_app in Hkv as [?|?]; [by right|left; by apply Hes].
Qed.

Lemma entries_eq c c' :
  keys c' = keys c → vals c' = vals c → entries c' = entries c.
Proof. unfold entries. by intros -> ->. Qed.

Lemma Len_entries c : aligned c → Len c = Z.of_nat (length (entries c)).
Proof. intros Ha. unfold Len. by rewrite length_entries. Qed.

Lemma Get_sound key c :
  aligned c →
  ∃ v c', Get key c = Some (v, Has key c, c') ∧ aligned c' ∧
    keys c' = keys c ∧ vals c' = vals c ∧ kcap c' = kcap c ∧
    accounted c c' [] ∧ (Has key c = false → v = zeroV ∧ c' = c).
Proof.
  intros Ha.
  destruct (Get_effect key c Ha)
    as (v & c' & HG & Ha' & Hk & Hv & Hc & Hcb & Hn & Hs).
  exists v, c'. split_and!; try done.
  - apply accounted_same; [done..|by apply entries_eq].
  - unfold Has. by destruct (scan key c).
Qed.

Lemma append_sound key val c :
  wf c → NoDup (keys c) → key ∉ keys c →
  ∃ c' ev, append key val c = Some c' ∧ wf c' ∧ kcap c' = kcap c ∧
    NoDup (keys c') ∧ accounted c c' ev ∧
    ∃ es, entries c' = es ++ [(key, val)] ∧ entries c ≡ₚ ev ++ es ∧
          length ev = if Len c <? kcap c then 0%nat else 1%nat.
Proof.
  intros Hwf Hnd Hk. pose proof Hwf as (Ha & _).
  destruct (append_taken key val c Hwf)
    as (c' & es & ev & Happ & Hwf' & Hc & Hcb & He' & He & Hn & Hlen).
  exists c', ev. split_and!; try done.
  - rewrite <-(entries_keys c'), He', fmap_app by apply Hwf'.
    rewrite <-(entries_keys c), He, fmap_app in Hnd, Hk by done.
    apply NoDup_app in Hnd as (_ & _ & Hnd).
    apply NoDup_app. split_and!; [done| |apply NoDup_singleton].
    intros k Hin [->|[]%elem_of_nil]%elem_of_cons.
    apply Hk, elem_of_app. by right.
  - apply (accounted_Permutation c c' ev es); [done|done|].
    intros kv Hkv. rewrite He'. apply elem_of_app. by left.
  - by exists es.
Qed.

Lemma Replace_sound key val c i :
  aligned c → scan key c = Some i →
  ∃ old c', Replace key val c = Some (true, c') ∧ aligned c' ∧
    entries c !! i = Some (key, old) ∧
    keys c' = keys c ∧ vals c' = <[i:=val]> (vals c) ∧
    kcap c' = kcap c ∧ accounted c c' [(key, old)].
Proof.
  intros Ha Hs.
  destruct (Replace_effect key val c i Ha Hs)
    as (old & c' & HR & Ha' & Hold & Hk & Hv & Hc & Hcb & Hn).
  pose proof (scan_Some _ _ _ Hs) as Hki.
  assert (entries c !! i = Some (key, old)) as Hkv by by apply lookup_entries.
  exists old, c'. split_and!; try done. split; [done|]. split.
  - intros kv [->|[]%elem_of_nil]%elem_of_cons.
    by eapply list_elem_of_lookup_2.
  - intros [k v] [j Hj]%list_elem_of_lookup_1.
    destruct (decide (j = i)) as [->|Hji].
    + right. rewrite Hkv in Hj. injection Hj as <- <-. by left.
    + left. apply lookup_entries in Hj as [Hjk Hjv].
      apply (list_elem_of_lookup_2 _ j), lookup_entries.
      by rewrite Hk, Hv, list_lookup_insert_ne.
Qed.

Lemma Remove_sound key c :
  aligned c → NoDup (keys c) →
  ∃ c' ev, Remove key c = Some (Has key c, c') ∧ aligned c' ∧
    kcap c' = kcap c ∧ (key ∉ keys c') ∧ NoDup (keys c') ∧
    entries c ≡ₚ ev ++ entries c' ∧ accounted c c' ev ∧
    ev.*1 = (if Has key c then [key] else []) ∧
    (Has key c = false → c' = c).
Proof.
  intros Ha Hnd. unfold Has. destruct (scan key c) as [i|] eqn:Hs.
  - destruct (Remove_effect key c i Ha Hs)
      as (v & c' & HR & Ha' & Hkv & He & Hc & Hcb & Hn).
    assert (keys c ≡ₚ key :: keys c') as Hp.
    { rewrite <-(entries_keys c), <-(entries_keys c'), He by done. done. }
    rewrite Hp in Hnd. apply NoDup_cons in Hnd as [Hk Hnd'].
    exists c', [(key, v)]. split_and!; try done.
    by apply (accounted_Permutation c c' _ (entries c')).
  - exists c, []. unfold Remove. rewrite Hs. apply scan_None in Hs.
    split_and!; try done. by apply accounted_same.
Qed.

Lemma RemoveAll_sound c :
  aligned c →
  ∃ c', RemoveAll c = Some c' ∧ keys c' = [] ∧ vals c' = [] ∧
    lastUse c' = [] ∧ tick c' = 0 ∧ kcap c' = kcap c ∧
    accounted c c' (entries c).
Proof.
  intros [Hv Hl]. unfold RemoveAll.
  destruct (evictAll_notified (keys c) 0 c) as (c1 & -> & Hc & Hcb & Hn);
    [simpl; lia|].
  cbn [mbind option_bind]. exists (Reset c1).
  split_and!; try done. split; [|split].
  - split; [done|]. simpl. by rewrite Hn.
  - done.
  - intros kv ?. by right.
Qed.

Lemma shrink_S n capacity c :
  shrink (S n) capacity c =
  if capacity <? Len c then c ← removeOldest c; shrink n capacity c
  else Some c.
Proof. done. Qed.

(** The eviction loop of [Resize] reports what it takes away and keeps
    the rest. *)
Lemma shrink_taken capacity : ∀ n c,
  aligned c → 0 ≤ capacity → (length (keys c) ≤ n)%nat →
  ∃ c' ev, shrink n capacity c = Some c' ∧ aligned c' ∧
    Len c' = Z.min (Len c) capacity ∧ kcap c' = kcap c ∧
    entries c ≡ₚ ev ++ entries c' ∧ reports c c' ev.
Proof.
  induction n as [|n IH]; intros c Ha Hcap Hn.
  - exists c, []. rewrite shrink_fits by (unfold Len; lia).
    split_and!; try done; [unfold Len; lia|by apply reports_nil].
  - destruct (Z.ltb_spec capacity (Len c)) as [Hlt|Hge].
    + rewrite shrink_S, (proj2 (Z.ltb_lt _ _) Hlt).
      destruct (removeOldest_taken c Ha)
        as (c1 & kv & -> & Ha1 & He & Hc1 & Hcb1 & Hn1);
        [unfold Len in *; lia|].
      cbn [mbind option_bind].
      assert (Len c = Len c1 + 1) as HL.
      { rewrite !Len_entries, He by done. simpl. lia. }
      destruct (IH c1 Ha1 Hcap)
        as (c' & ev & -> & Ha' & HL' & Hc' & He' & Hcb' & Hn');
        [unfold Len in *; lia|].
      exists c', (kv :: ev). split_and!; [done|done|lia|congruence| |].
      * by rewrite He, He'.
      * split; [congruence|]. rewrite Hn', Hn1, Hcb1.
        destruct (evicted c); simpl; [by rewrite <-app_assoc|].
        by rewrite app_nil_r.
    + exists c, []. rewrite shrink_fits by done.
      split_and!; try done; [lia|by apply reports_nil].
Qed.

Lemma Resize_sound capacity c :
  aligned c → 0 ≤ capacity → kcap c ≠ capacity →
  ∃ c' ev, Resize capacity c = Some c' ∧ aligned c' ∧
    Len c' = Z.min (Len c) capacity ∧ kcap c' = capacity ∧ tick c' = 0 ∧
    entries c ≡ₚ ev ++ entries c' ∧ accounted c c' ev.
Proof.
  intros Ha Hcap Hne. unfold Resize.
  destruct (Z.eqb_spec (kcap c) capacity); [done|].
  destruct (shrink_taken capacity (length (keys c)) c)
    as (c1 & ev & -> & Ha1 & HL & Hc & He & Hcb & Hn); [done|done|lia|].
  cbn [mbind option_bind]. destruct (Z.ltb_spec capacity 0); [lia|].
  eexists _, ev. split; [done|]. split_and!; try done.
  by apply (accounted_Permutation c _ ev (entries c1)).
Qed.

(** *** One call on a cache in a good state *)

Lemma GetOrSet_sound {E} key (setter : K → V * option E) c :
  wf c → NoDup (keys c) →
  ∃ r c' ev, GetOrSet key setter c = Some (r, c') ∧ wf c' ∧
    NoDup (keys c') ∧ accounted c c' ev.
Proof.
  intros Hwf Hnd. pose proof Hwf as (Ha & Hle & Hpos). unfold GetOrSet.
  destruct (Get_sound key c Ha)
    as (v & c1 & -> & Ha1 & Hk & Hv & Hc & Hacc & Hmiss).
  cbn [mbind option_bind]. destruct (Has key c) eqn:HH.
  - eexists _, c1, []. split_and!; try done; [|by rewrite Hk].
    split_and!; [done|unfold Len; rewrite Hk; fold (Len c); lia|lia].
  - destruct Hmiss as [-> ->]; [done|].
    destruct (setter key) as [val [e|]].
    + eexists _, c, []. split_and!; try done.
    + destruct (append_sound key val c Hwf Hnd)
        as (c' & ev & -> & ? & _ & ? & ? & _).
      { intros Hin%Has_elem_of. congruence. }
      cbn [mbind option_bind]. by eexists _, c', ev.
Qed.

Lemma step_sound {E} (o : op K V E) c :
  wf c → NoDup (keys c) → positive_resize o →
  ∃ c' ev, step o c = Some c' ∧ wf c' ∧ NoDup (keys c') ∧
    reports c c' ev ∧ (o ≠ OpReset → accounted c c' ev).
Proof.
  intros Hwf Hnd Hpos. pose proof Hwf as (Ha & Hle & Hcap).
  destruct o as [key|key|key setter|key val|key val|key| | |capacity];
    simpl.
  - exists c, []. split_and!; try done; [by apply reports_nil|].
    intros _. by apply accounted_same.
  - destruct (Get_sound key c Ha)
      as (v & c' & -> & Ha' & Hk & Hv & Hc & Hacc & _).
    exists c', []. simpl. split_and!; try done; [|by rewrite Hk|apply Hacc].
    split_and!; [done|unfold Len; rewrite Hk; fold (Len c); lia|lia].
  - destruct (GetOrSet_sound key setter c Hwf Hnd)
      as (r & c' & ev & -> & ? & ? & Hacc).
    exists c', ev. simpl. split_and!; try done. apply Hacc.
  - unfold Set_. destruct (Has key c) eqn:HH.
    + exists c, []. simpl. split_and!; try done; [by apply reports_nil|].
      intros _. by apply accounted_same.
    + destruct (append_sound key val c Hwf Hnd)
        as (c' & ev & -> & ? & _ & ? & Hacc & _).
      { intros Hin%Has_elem_of. congruence. }
      exists c', ev. simpl. split_and!; try done. apply Hacc.
  - destruct (scan key c) as [i|] eqn:Hs.
    + destruct (Replace_sound key val c i Ha Hs)
        as (old & c' & -> & Ha' & _ & Hk & _ & Hc & Hacc).
      exists c', [(key, old)]. simpl.
      split_and!; try done; [|by rewrite Hk|apply Hacc].
      split_and!; [done|unfold Len; rewrite Hk; fold (Len c); lia|lia].
    + unfold Replace. rewrite Hs. apply scan_None in Hs.
      destruct (append_sound key val c Hwf Hnd Hs)
        as (c' & ev & -> & ? & _ & ? & Hacc & _).
      exists c', ev. simpl. split_and!; try done. apply Hacc.
  - destruct (Remove_sound key c Ha Hnd)
      as (c' & ev & -> & Ha' & Hc & _ & ? & He & Hacc & _).
    exists c', ev. simpl. split_and!; try done; [|apply Hacc].
    split_and!; [done| |lia].
    rewrite Len_entries in Hle |- * by done.
    rewrite He, length_app in Hle. lia.
  - destruct (RemoveAll_sound c Ha)
      as (c' & -> & Hk & Hv & Hl & _ & Hc & Hacc).
    exists c', (entries c). split_and!; try done; [|by rewrite Hk; constructor|apply Hacc].
    unfold wf, aligned, Len. rewrite Hk, Hv, Hl. simpl. lia.
  - exists (Reset c), []. split_and!; try done; [|constructor|by apply reports_nil].
    unfold wf, aligned, Len. simpl. lia.
  - simpl in Hpos.
    destruct (decide (kcap c = capacity)) as [He|Hne].
    { exists c, []. unfold Resize. rewrite (proj2 (Z.eqb_eq _ _) He).
      split_and!; try done; [by apply reports_nil|].
      intros _. by apply accounted_same. }
    destruct (Resize_sound capacity c Ha) as
      (c' & ev & -> & Ha' & HL & Hc' & _ & He & Hacc); [lia|done|].
    exists c', ev. split_and!; try done; [| |apply Hacc].
    { split_and!; [done|lia|lia]. }
    rewrite <-(entries_keys c), He, fmap_app in Hnd by done.
    apply NoDup_app in Hnd as (_ & _ & Hnd).
    by rewrite <-(entries_keys c').
Qed.

Lemma run_sound {E} (os : list (op K V E)) : ∀ c,
  wf c → NoDup (keys c) → Forall positive_resize os →
  ∃ c', run os c = Some c' ∧ wf c' ∧ NoDup (keys c') ∧
    evicted c' = evicted c ∧ (notified c `prefix_of` notified c') ∧
    (evicted c = false → notified c' = notified c).
Proof.
  induction os as [|o os IH]; intros c Hwf Hnd Hos; simpl.
  - by exists c.
  - inversion Hos as [|? ? Ho Hos']; subst.
    destruct (step_sound o c Hwf Hnd Ho)
      as (c1 & ev & -> & Hwf1 & Hnd1 & [Hcb1 Hn1] & _).
    cbn [mbind option_bind].
    destruct (IH c1 Hwf1 Hnd1 Hos') as (c' & -> & ? & ? & Hcb & Hpre & Hnil).
    exists c'. split_and!; [done|done|done|congruence| |].
    + trans (notified c1); [|done]. rewrite Hn1. by apply prefix_app_r.
    + intros Hf. rewrite Hnil, Hn1, Hf by congruence. by rewrite app_nil_r.
Qed.

(** *** Reading back what was written *)

Lemma Get_at key c i v :
  aligned c → scan key c = Some i → vals c !! i = Some v →
  ∃ c', Get key c = Some (v, true, c').
Proof.
  intros Ha Hs Hv.
  destruct (Get_effect key c Ha) as (v' & c' & HG & _ & _ & _ & _ & _ & _ & Hm).
  unfold Has in HG. rewrite Hs in HG, Hm. exists c'. congruence.
Qed.

Lemma append_then_Get key val c :
  wf c → key ∉ keys c →
  ∃ c1 c2, append key val c = Some c1 ∧ wf c1 ∧
    Get key c1 = Some (val, true, c2) ∧
    Len c1 = Z.min (Len c + 1) (kcap c).
Proof.
  intros Hwf Hk. pose proof Hwf as (Ha & Hle & _).
  destruct (append_taken key val c Hwf)
    as (c1 & es & ev & Happ & Hwf1 & _ & _ & He1 & He & _ & Hlen).
  pose proof Hwf1 as (Ha1 & _).
  assert (key ∉ es.*1) as Hes.
  { intros Hin. apply Hk. rewrite <-(entries_keys c), He, fmap_app by done.
    apply elem_of_app. by right. }
  assert (keys c1 = es.*1 ++ [key]) as Hk1.
  { by rewrite <-(entries_keys c1), He1, fmap_app. }
  pose proof (scan_snoc key c1 _ Hk1 Hes) as Hs. rewrite length_fmap in Hs.
  assert (entries c1 !! length es = Some (key, val)) as [_ Hv]%lookup_entries.
  { by rewrite He1, list_lookup_middle. }
  destruct (Get_at key c1 _ val Ha1 Hs Hv) as (c2 & HG).
  exists c1, c2. split_and!; [done..|].
  assert (Len c1 + Z.of_nat (length ev) = Len c + 1) as HL.
  { rewrite (Len_entries c1), (Len_entries c), He1, He, !length_app by done.
    simpl. lia. }
  destruct (Z.ltb_spec (Len c) (kcap c)); rewrite Hlen in HL; lia.
Qed.

(** *** The eviction loop on a cache in the recency window *)

Lemma shrink_ordered capacity : ∀ n c r,
  ordered c r → 0 ≤ capacity → (length (keys c) ≤ n)%nat →
  ∃ c', shrink n capacity c = Some c' ∧
    ordered c' (drop (Z.to_nat (Len c - capacity)) r) ∧
    tick c' = tick c ∧ kcap c' = kcap c ∧
    reports c c' (take (Z.to_nat (Len c - capacity)) r).
Proof.
  induction n as [|n IH]; intros c r Ho Hcap Hn.
  - exists c. rewrite shrink_fits by (unfold Len; lia).
    replace (Z.to_nat (Len c - capacity)) with 0%nat by (unfold Len; lia).
    rewrite drop_0, take_0. split_and!; try done. by apply reports_nil.
  - destruct (Z.ltb_spec capacity (Len c)) as [Hlt|Hge].
    + rewrite shrink_S, (proj2 (Z.ltb_lt _ _) Hlt).
      pose proof (ordered_length _ _ Ho) as Hlen.
      destruct r as [|[k v] r]; [simpl in Hlen; unfold Len in *; lia|].
      destruct (removeOldest_ordered zeroK zeroV c k v r Ho)
        as (c1 & -> & Ho1 & Ht1 & HL1 & Hc1 & Hcb1 & Hn1).
      cbn [mbind option_bind].
      destruct (IH c1 r Ho1 Hcap)
        as (c' & -> & Ho' & Ht' & Hc' & Hcb' & Hn'); [unfold Len in *; lia|].
      exists c'.
      replace (Z.to_nat (Len c - capacity))
        with (S (Z.to_nat (Len c1 - capacity))) by lia.
      simpl. split_and!; [done|done|congruence|congruence|].
      split; [congruence|]. rewrite Hn', Hn1, Hcb1.
      destruct (evicted c); simpl; [by rewrite <-app_assoc|].
      by rewrite app_nil_r.
    + exists c. rewrite shrink_fits by done.
      replace (Z.to_nat (Len c - capacity)) with 0%nat by lia.
      rewrite drop_0, take_0. split_and!; try done. by apply reports_nil.
Qed.

(** *** [repair] and the recency window *)

Lemma zip_seq_stamped (r : list (K * V)) : ∀ j,
  zip r (Z.of_nat <$> seq j (length r)) = stamped (Z.of_nat j) r.
Proof.
  induction r as [|kv r IH]; intros j; [done|].
  rewrite stamped_cons. simpl. f_equal. rewrite IH. f_equal. lia.
Qed.

Lemma repair_ordered c :
  aligned c → NoDup (keys c) → Len c < MaxUint64 →
  ordered (repair c) (entries c).
Proof.
  intros Ha Hnd Hlen. pose proof Ha as [Hv Hl].
  unfold ordered. split_and!.
  - unfold aligned. simpl. rewrite length_fmap, length_seq. lia.
  - by rewrite entries_keys.
  - simpl. unfold Len. simpl. lia.
  - simpl. unfold Len in *. simpl. lia.
  - replace (tick (repair c) - Len (repair c)) with (Z.of_nat 0)
      by (simpl; unfold Len; simpl; lia).
    rewrite <-zip_seq_stamped, length_entries by done.
    unfold slots, entries. simpl. by rewrite Hl.
Qed.

(** *** The end of the [uint64] range *)

Lemma rebase_shift t (l : list Z) :
  Forall (λ x, t ≤ x) l → rebase t l = Some ((λ x, u64 (x + t)) <$> l).
Proof.
  induction 1 as [|x l Hx _ IH]; [done|]. simpl.
  destruct (Z.ltb_spec x t); [lia|]. by rewrite IH.
Qed.

(** * Properties of the public methods *)

(** X1.  On a cache of positive capacity no sequence of calls fails or
    hangs, whatever the keys, as long as [Resize] is given positive
    capacities; afterwards the three slices have the same length, which
    is within the capacity of the slice, no key is stored twice, and a
    cache made without a callback has reported nothing. *)
Theorem calls_keep_keys_distinct {E} (capacity : Z) (cb : bool)
    (os : list (op K V E)) :
  0 < capacity → Forall positive_resize os →
  ∃ c, New capacity cb ≫= run os = Some c ∧
       aligned c ∧ Len c ≤ kcap c ∧ NoDup (keys c) ∧ evicted c = cb ∧
       (cb = false → notified c = []).
Proof.
  intros Hpos Hos.
  destruct (New_wf (K:=K) (V:=V) capacity cb Hpos) as (c0 & HN & Hwf0 & _).
  rewrite HN. cbn [mbind option_bind].
  unfold New in HN. destruct (capacity <? 0); [done|].
  injection HN as <-.
  destruct (run_sound os _ Hwf0) as (c & -> & (Ha & Hle & _) & Hnd & Hcb & _ & Hn);
    [apply NoDup_nil_2|done|].
  exists c. by split_and!.
Qed.

(** X2.  Whatever a call other than [Reset] takes out of the cache it
    reports to the callback: every entry reported was in the cache
    before the call, and every entry that was in the cache is still
    there or has been reported.  This holds for every call on a cache
    in a good state, evictions by [Resize] included. *)
Theorem entries_leave_reported {E} (o : op K V E) c :
  wf c → NoDup (keys c) → positive_resize o → o ≠ OpReset →
  ∃ c' ev, step o c = Some c' ∧ accounted c c' ev.
Proof.
  intros Hwf Hnd Hpos Ho.
  destruct (step_sound o c Hwf Hnd Hpos) as (c' & ev & Hs & _ & _ & _ & Hacc).
  exists c', ev. split; [done|]. by apply Hacc.
Qed.

(** X3.  [Get] reads: it returns, its flag is what [Has] answers, it
    changes no key, no value and no capacity and reports nothing; on a
    hit the value is the one stored with the key, on a miss it is the
    zero value and the cache is left as it was, clock included. *)
Theorem Get_changes_no_entry key c :
  aligned c →
  ∃ v c', Get key c = Some (v, Has key c, c') ∧
    entries c' = entries c ∧ kcap c' = kcap c ∧ notified c' = notified c ∧
    (Has key c = true ↔ key ∈ keys c) ∧
    (Has key c = true → (key, v) ∈ entries c) ∧
    (Has key c = false → v = zeroV ∧ c' = c).
Proof.
  intros Ha.
  destruct (Get_effect key c Ha)
    as (v & c' & HG & _ & Hk & Hv & Hc & _ & Hn & Hm).
  exists v, c'. split_and!; try done.
  - by apply entries_eq.
  - apply Has_elem_of.
  - unfold Has. destruct (scan key c) as [i|] eqn:Hs; [|done]. intros _.
    apply (list_elem_of_lookup_2 _ i), lookup_entries.
    split; [by apply scan_Some|done].
  - unfold Has. by destruct (scan key c).
Qed.

(** X4.  [Set] answers whether it inserted, and afterwards the key is
    in the cache: a [Get] finds it.  A key that was absent is read back
    with the value given; a key that was present keeps its value, and
    the cache is left as it was. *)
Theorem Set_then_Get key val c :
  wf c →
  ∃ c1 v c2, Set_ key val c = Some (negb (Has key c), c1) ∧
    Get key c1 = Some (v, true, c2) ∧
    (Has key c = false → v = val ∧ Len c1 = Z.min (Len c + 1) (kcap c)) ∧
    (Has key c = true → c1 = c ∧ (key, v) ∈ entries c).
Proof.
  intros Hwf. pose proof Hwf as (Ha & _). unfold Set_.
  destruct (Has key c) eqn:HH.
  - unfold Has in HH. destruct (scan key c) as [i|] eqn:Hs; [|done].
    pose proof (scan_bound _ _ _ Hs) as Hi.
    destruct (lookup_lt_is_Some_2 (vals c) i) as [v Hv];
      [destruct Ha; lia|].
    destruct (Get_at key c i v Ha Hs Hv) as (c2 & HG).
    exists c, v, c2. split_and!; try done. intros _. split; [done|].
    apply (list_elem_of_lookup_2 _ i), lookup_entries.
    split; [by apply scan_Some|done].
  - destruct (append_then_Get key val c Hwf) as (c1 & c2 & -> & _ & HG & HL).
    { intros Hin%Has_elem_of. congruence. }
    by exists c1, val, c2.
Qed.

(** X5.  [Replace] answers whether the key was there, and afterwards a
    [Get] of the key returns the value given, whether the key was
    replaced or inserted; a replacement keeps the number of entries. *)
Theorem Replace_then_Get key val c :
  wf c →
  ∃ c1 c2, Replace key val c = Some (Has key c, c1) ∧
    Get key c1 = Some (val, true, c2) ∧
    Len c1 = if Has key c then Len c else Z.min (Len c + 1) (kcap c).
Proof.
  intros Hwf. pose proof Hwf as (Ha & _). unfold Has.
  destruct (scan key c) as [i|] eqn:Hs.
  - destruct (Replace_effect key val c i Ha Hs)
      as (old & c1 & HR & Ha1 & Hold & Hk & Hv & _).
    assert (scan key c1 = Some i) as Hs1 by (unfold scan; by rewrite Hk).
    assert (vals c1 !! i = Some val) as Hv1.
    { rewrite Hv. apply list_lookup_insert_eq. by eapply lookup_lt_Some. }
    destruct (Get_at key c1 i val Ha1 Hs1 Hv1) as (c2 & HG).
    exists c1, c2. split_and!; [done|done|]. unfold Len. by rewrite Hk.
  - unfold Replace. rewrite Hs. apply scan_None in Hs.
    destruct (append_then_Get key val c Hwf Hs) as (c1 & c2 & -> & _ & ? & ?).
    by exists c1, c2.
Qed.

(** X6.  [Replace] on a key that is in the cache puts the new value in
    the slot of the key, leaves every other entry and the storage order
    as they were, and reports the key with its old value, once. *)
Theorem Replace_present_swaps_value key val c :
  aligned c → key ∈ keys c →
  ∃ i old c', Replace key val c = Some (true, c') ∧
    entries c !! i = Some (key, old) ∧
    entries c' = <[i:=(key, val)]> (entries c) ∧
    kcap c' = kcap c ∧ reports c c' [(key, old)].
Proof.
  intros Ha [i Hs]%scan_present.
  destruct (Replace_sound key val c i Ha Hs)
    as (old & c' & HR & _ & Hkv & Hk & Hv & Hc & Hrep & _).
  exists i, old, c'. split_and!; try done.
  unfold entries. rewrite Hk, Hv, insert_zip_with. f_equal.
  symmetry. by apply list_insert_id, scan_Some.
Qed.

(** X7.  [Remove] answers whether the key was there, and afterwards the
    key is not in the cache.  A key that was there is reported once with
    its value, and every other entry stays; a key that was not there
    leaves the cache as it was. *)
Theorem Remove_takes_the_key key c :
  aligned c → NoDup (keys c) →
  ∃ c' ev, Remove key c = Some (Has key c, c') ∧ Has key c' = false ∧
    entries c ≡ₚ ev ++ entries c' ∧ reports c c' ev ∧
    ev.*1 = (if Has key c then [key] else []) ∧
    (Has key c = false → c' = c).
Proof.
  intros Ha Hnd.
  destruct (Remove_sound key c Ha Hnd)
    as (c' & ev & HR & _ & _ & Hk & _ & He & (Hrep & _) & Hev & Hmiss).
  exists c', ev. split_and!; try done.
  destruct (Has key c') eqn:HH; [|done]. by apply Has_elem_of in HH.
Qed.

(** X8.  [RemoveAll] reports every entry, once, in storage order, and
    then empties the cache as [Reset] does; [Reset] reports nothing.
    Both keep the capacity and set the clock to 0. *)
Theorem RemoveAll_reports_Reset_is_silent c :
  aligned c →
  ∃ c', RemoveAll c = Some c' ∧ reports c c' (entries c) ∧
    c' = set_notified (notified c') (Reset c) ∧
    reports c (Reset c) [] ∧ entries (Reset c) = [] ∧ tick (Reset c) = 0 ∧
    kcap (Reset c) = kcap c.
Proof.
  intros Ha.
  destruct (RemoveAll_sound c Ha)
    as (c' & HR & Hk & Hv & Hl & Ht & Hc & (Hcb & Hn) & _).
  exists c'. split_and!; try done.
  - destruct c'; simpl in *. unfold set_notified, Reset. simpl. congruence.
  - by apply reports_nil.
Qed.

(** X9.  [Iterate] never reads out of range and yields every entry
    once, in storage order: the keys it yields are the stored keys, the
    values the stored values. *)
Theorem Iterate_yields_the_entries c :
  aligned c →
  Iterate c = Some (entries c) ∧
  (entries c).*1 = keys c ∧ (entries c).*2 = vals c.
Proof.
  intros Ha. split; [by apply Iterate_entries|]. split;
    [by apply entries_keys|].
  destruct Ha as [Hv Hl]. unfold entries. apply snd_zip. lia.
Qed.

(** X10.  The ordered iterators never read out of range, whatever the
    recency ticks are: each returns, yields at most [Len] pairs, and
    every pair it yields is an entry of the cache. *)
Theorem ordered_iterators_stay_in_range c :
  aligned c →
  ∃ la ld, IterateAsc c = Some la ∧ IterateDesc c = Some ld ∧
    (length la ≤ length (keys c))%nat ∧ (length ld ≤ length (keys c))%nat ∧
    ∀ kv, kv ∈ la ++ ld → kv ∈ entries c.
Proof.
  intros Ha. unfold IterateAsc, IterateDesc.
  destruct (walk_entries (λ t, u64 (t + 1)) c Ha (length (keys c))
              (oldestTick c)) as (la & -> & ? & Hla).
  destruct (walk_entries (λ t, u64 (t - 1)) c Ha (length (keys c))
              (u64 (tick c - 1))) as (ld & -> & ? & Hld).
  exists la, ld. split_and!; try done.
  intros kv [?|?]%elem_of_app; [by apply Hla|by apply Hld].
Qed.

Lemma rcap_gentle_run {E} (os : list (op K V E)) : ∀ ρ,
  gentle_run os ρ → rcap (foldl (λ r o, touch_step o r) ρ os) = rcap ρ.
Proof.
  induction os as [|o os IH]; intros ρ Hg; [done|].
  simpl in *. destruct Hg as [Hgo Hg]. rewrite (IH _ Hg).
  by destruct o; simpl in *; repeat case_match.
Qed.

(** X11.  The engine is an LRU cache for calls that touch or remove no
    entry but the least recently touched one: after such calls on a
    fresh cache the ascending iterator yields the live keys in the
    order of their most recent touch, the descending one the reverse,
    these are all the keys in the cache, and the cache is within its
    capacity, which is the one it was made with. *)
Theorem recency_order_of_gentle_calls {E} (capacity : Z) (cb : bool)
    (os : list (op K V E)) :
  0 < capacity → Z.of_nat (length os) < MaxUint64 →
  gentle_run os (Recency capacity []) →
  ∃ c, New capacity cb ≫= run os = Some c ∧
       ascKeys c = Some (touch_order capacity os) ∧
       descKeys c = Some (reverse (touch_order capacity os)) ∧
       keys c ≡ₚ touch_order capacity os ∧
       Len c ≤ capacity ∧ kcap c = capacity.
Proof.
  intros Hpos Hlen Hg. unfold New.
  destruct (Z.ltb_spec capacity 0); [lia|]. cbn [mbind option_bind].
  destruct (run_stands_for zeroK zeroV growslice os _ _
              (New_stands_for capacity cb Hpos) Hg)
    as (c & Hrun & Hs & _); [simpl; lia|].
  exists c. split; [done|].
  destruct (stands_for_iterators c _ Hs) as [Hasc Hdesc].
  destruct Hs as (r & Ho & Hr & Hc & _ & Hle).
  pose proof (rcap_gentle_run os _ Hg) as Hcap. simpl in Hcap.
  split_and!; [done|done| |lia|lia].
  rewrite (ordered_keys c r Ho). unfold touch_order. by rewrite Hr.
Qed.

(** X12.  As long as the capacity is not changed, every recency tick
    stays below the clock: after any calls but [Resize] on a fresh cache
    of positive capacity, far from the end of the [uint64] range. *)
Theorem ticks_below_clock_without_Resize {E} (os : list (op K V E))
    (capacity : Z) (cb : bool) :
  0 < capacity → Forall keeps_capacity os →
  capacity + Z.of_nat (length os) + 1 < MaxUint64 →
  ∃ c, New capacity cb ≫= run os = Some c ∧ ticks_below_clock c.
Proof. apply run_below. Qed.

(** X13.  The recursion of [removeOldest] ends: after one [repair] the
    oldest tick is found, so a second level of the recursion is never
    left for a third.  On an empty cache the call does nothing;
    otherwise it takes exactly one entry out, reports it, and leaves
    the others and the capacity as they were. *)
Theorem removeOldest_ends_after_one_repair c n :
  aligned c → (2 ≤ n)%nat →
  ∃ c', removeOldest_rec n c = Some c' ∧ removeOldest c = Some c' ∧
    kcap c' = kcap c ∧
    (length (keys c) = 0%nat → c' = c) ∧
    (length (keys c) ≠ 0%nat →
     ∃ kv, entries c ≡ₚ kv :: entries c' ∧ reports c c' [kv]).
Proof.
  intros Ha Hn. rewrite removeOldest_rec_fuel by done.
  destruct (decide (length (keys c) = 0%nat)) as [Hz|Hnz].
  - exists c. unfold removeOldest. rewrite removeOldest_rec_S.
    rewrite decide_True by done. by split_and!.
  - destruct (removeOldest_taken c Ha Hnz)
      as (c' & kv & HR & _ & He & Hc & Hcb & Hnot).
    exists c'. split_and!; try done. intros _. by exists kv.
Qed.

(** X14.  When no slot carries the oldest tick, an eviction falls back
    on storage order and puts the cache back into the recency window:
    [removeOldest] takes out and reports the entry in slot 0, and the
    entries that stay are in the window, in the order storage had them
    in; the ordered iterators then yield them in that order and its
    reverse. *)
Theorem eviction_fallback_restores_window c k v r :
  aligned c → NoDup (keys c) → Len c < MaxUint64 →
  entries c = (k, v) :: r → find (oldestTick c) c = None →
  ∃ c', removeOldest c = Some c' ∧ reports c c' [(k, v)] ∧
    ordered c' r ∧ IterateAsc c' = Some r ∧
    IterateDesc c' = Some (reverse r).
Proof.
  intros Ha Hnd Hlen He Hf. pose proof Ha as [Hv Hl].
  assert (length (keys c) ≠ 0%nat) as Hnz.
  { rewrite <-length_entries, He by done. done. }
  pose proof (repair_ordered c Ha Hnd Hlen) as Ho. rewrite He in Ho.
  unfold removeOldest. rewrite removeOldest_rec_S, decide_False, Hf by done.
  rewrite removeOldest_rec_repair by lia.
  destruct (remove_first_ordered zeroK zeroV (repair c) 0 k v r Ho)
    as (c' & -> & Ho' & _ & _ & _ & Hcb & Hn).
  { replace (tick (repair c) - Len (repair c)) with 0
      by (simpl; unfold Len; simpl; lia).
    assert (entries c !! 0%nat = Some (k, v)) as [Hk0 Hv0]%lookup_entries
      by by rewrite He.
    apply lookup_slots. split_and!; [done..|]. simpl.
    rewrite list_lookup_fmap, lookup_seq_lt by lia. done. }
  exists c'. split_and!; [done|done|done| |].
  - by apply IterateAsc_ordered.
  - by apply IterateDesc_ordered.
Qed.

(** X15.  [Resize] to a smaller capacity, on a cache in the recency
    window, evicts the least recently touched entries, oldest first,
    and keeps the [capacity] most recently touched ones. *)
Theorem Resize_evicts_oldest_first capacity c r :
  ordered c r → 0 ≤ capacity → kcap c ≠ capacity →
  ∃ c', Resize capacity c = Some c' ∧
    reports c c' (take (Z.to_nat (Len c - capacity)) r) ∧
    entries c' ≡ₚ drop (Z.to_nat (Len c - capacity)) r ∧
    kcap c' = capacity.
Proof.
  intros Ho Hcap Hne. unfold Resize.
  destruct (Z.eqb_spec (kcap c) capacity); [done|].
  pose proof Ho as (Ha & _).
  destruct (shrink_ordered capacity (length (keys c)) c r Ho Hcap)
    as (c1 & -> & Ho1 & _ & _ & Hrep); [lia|].
  cbn [mbind option_bind]. destruct (Z.ltb_spec capacity 0); [lia|].
  eexists. split; [done|]. split_and!; [done| |done].
  destruct Ho1 as (Ha1 & _ & _ & Hp).
  change (entries c1 ≡ₚ drop (Z.to_nat (Len c - capacity)) r).
  by rewrite <-(entries_slots c1), Hp, stamped_entries.
Qed.

(** X16.  [Resize] to another, non-negative capacity returns, whatever
    the recency ticks are: the cache then holds the smaller of its
    former length and the new capacity, the entries that went are
    reported, the others stay, and the clock is 0. *)
Theorem Resize_reports_what_it_drops capacity c :
  aligned c → 0 ≤ capacity → kcap c ≠ capacity →
  ∃ c' ev, Resize capacity c = Some c' ∧ aligned c' ∧
    Len c' = Z.min (Len c) capacity ∧ kcap c' = capacity ∧ tick c' = 0 ∧
    entries c ≡ₚ ev ++ entries c' ∧ reports c c' ev.
Proof.
  intros Ha Hcap Hne.
  destruct (Resize_sound capacity c Ha Hcap Hne)
    as (c' & ev & ? & ? & ? & ? & ? & ? & ? & _).
  by exists c', ev.
Qed.

(** X17.  [Resize] to a negative capacity never returns: the length is
    never below the capacity, so the eviction loop runs on, on the
    empty cache too, where [removeOldest] does nothing. *)
Theorem Resize_negative_capacity_never_returns capacity c :
  capacity < 0 →
  (∀ n, shrink n capacity c = None) ∧
  (kcap c ≠ capacity → Resize capacity c = None).
Proof.
  intros Hneg.
  assert (∀ n c, shrink n capacity c = None) as Hspin.
  { clear c. induction n as [|n IH]; intros c.
    - simpl. destruct (Z.ltb_spec capacity (Len c)); [done|].
      unfold Len in *. lia.
    - rewrite shrink_S. destruct (Z.ltb_spec capacity (Len c));
        [|unfold Len in *; lia].
      destruct (removeOldest c) as [c1|]; [|done]. apply IH. }
  split; [done|]. intros Hne. unfold Resize.
  destruct (Z.eqb_spec (kcap c) capacity); [done|]. by rewrite Hspin.
Qed.

(** X18.  The clock never wraps around: [nextTick] hands out a tick
    below [MaxUint64] and leaves the clock one above it, also when the
    clock had reached [MaxUint64]. *)
Theorem nextTick_never_wraps c :
  0 ≤ tick c ≤ MaxUint64 → Len c < MaxUint64 →
  0 ≤ (nextTick c).1 < MaxUint64 ∧
  tick (nextTick c).2 = (nextTick c).1 + 1.
Proof.
  intros Ht Hlen. unfold nextTick. cbn [fst snd tick set_tick].
  assert (0 ≤ tick (preventTickOverflow c) < MaxUint64) as Hp.
  { unfold preventTickOverflow.
    destruct (Z.eqb_spec (tick c) MaxUint64) as [He|Hne]; [|lia].
    destruct (rebase (oldestTick c) (lastUse c)); simpl; unfold Len in *; lia. }
  split; [done|]. apply u64_small. unfold MaxUint64 in *. lia.
Qed.

(** X19.  When the clock has reached [MaxUint64] and every recency
    tick is in the window of the last [Len] ticks, the clock restarts
    at [Len] and every tick has the oldest tick added to it modulo
    [2 ^ 64], which lowers it by [Len + 1]; every tick is then at or
    above the clock. *)
Theorem clock_overflow_shifts_ticks c :
  tick c = MaxUint64 → 3 * Len c < MaxUint64 →
  Forall (λ x, tick c - Len c ≤ x < tick c) (lastUse c) →
  preventTickOverflow c
  = set_tick (Len c) (set_lastUse ((λ x, x - Len c - 1) <$> lastUse c) c) ∧
  Forall (λ x, tick (preventTickOverflow c) ≤ x)
    (lastUse (preventTickOverflow c)).
Proof.
  intros Ht Hlen Hw.
  assert (oldestTick c = MaxUint64 - Len c) as Ho.
  { unfold oldestTick. rewrite Ht. apply u64_small.
    unfold MaxUint64, Len in *. lia. }
  assert (preventTickOverflow c
          = set_tick (Len c)
              (set_lastUse ((λ x, x - Len c - 1) <$> lastUse c) c)) as Hp.
  { unfold preventTickOverflow. rewrite Ht, Z.eqb_refl, rebase_shift.
    - do 2 f_equal. apply Forall_fmap_ext. rewrite Ho.
      eapply Forall_impl; [done|]. intros x Hx. simpl in Hx. unfold u64.
      replace (x + (MaxUint64 - Len c))
        with (x - Len c - 1 + 1 * 2 ^ 64) by (unfold MaxUint64; lia).
      rewrite Z.mod_add by done. apply Z.mod_small.
      unfold MaxUint64, Len in *. lia.
    - rewrite Ho. eapply Forall_impl; [done|]. simpl. lia. }
  split; [done|]. rewrite Hp. simpl. apply Forall_fmap.
  eapply Forall_impl; [done|]. intros x Hx. simpl in *.
  unfold MaxUint64, Len in *. lia.
Qed.

(** X20.  On a key that is in the cache [GetOrSet] is [Get]: it returns
    the stored value and no error, and the producer plays no part. *)
Theorem GetOrSet_present_ignores_producer {E} key
    (s1 s2 : K → V * option E) c :
  aligned c → key ∈ keys c →
  ∃ v c', Get key c = Some (v, true, c') ∧
    GetOrSet key s1 c = Some (v, None, c') ∧
    GetOrSet key s2 c = Some (v, None, c').
Proof.
  intros Ha Hin%Has_elem_of.
  destruct (Get_effect key c Ha) as (v & c' & HG & _).
  rewrite Hin in HG. exists v, c'. unfold GetOrSet. by rewrite HG.
Qed.

(** X21.  On a key that is not in the cache, with a producer that
    succeeds, [GetOrSet] stores the produced value as [Set] would, and
    returns it; a [Get] then reads it back. *)
Theorem GetOrSet_absent_inserts_like_Set {E} key
    (setter : K → V * option E) val c :
  wf c → key ∉ keys c → setter key = (val, None) →
  ∃ c1 c2, Set_ key val c = Some (true, c1) ∧
    GetOrSet key setter c = Some (val, None, c1) ∧
    Get key c1 = Some (val, true, c2).
Proof.
  intros Hwf Hk Hset.
  destruct (append_then_Get key val c Hwf Hk) as (c1 & c2 & Happ & _ & HG & _).
  exists c1, c2. rewrite Set_absent by done.
  unfold GetOrSet. rewrite Get_miss by done. cbn [mbind option_bind].
  rewrite Hset, Happ. done.
Qed.

(** X22.  A cache made with capacity 0 is not a cache that holds
    nothing: the first insertion finds nothing to evict, appends, and
    the Go runtime grows the slice.  From then on the cache behaves as
    one of the capacity the runtime chose for a slice grown from 0 to
    1: no later call fails, no key is stored twice, and the length
    stays within the capacity of the slice. *)
Theorem zero_capacity_cache_grows {E} key val cb (os : list (op K V E)) :
  0 < growslice 0 1 → Forall positive_resize os →
  ∃ c1 c, New 0 cb ≫= Set_ key val = Some (true, c1) ∧
    entries c1 = [(key, val)] ∧ kcap c1 = growslice 0 1 ∧
    run os c1 = Some c ∧ aligned c ∧ Len c ≤ kcap c ∧ NoDup (keys c).
Proof.
  intros Hg Hos.
  set (c1 := Lru [key] [val] [0] 1 (growslice 0 1) cb []).
  destruct (run_sound os c1) as (c & Hrun & (Ha & Hle & _) & Hnd & _).
  { unfold wf, aligned, Len. simpl. lia. }
  { apply NoDup_singleton. }
  { done. }
  by exists c1, c.
Qed.

End Operations.

(** ** The properties at work on caches with [int] keys *)

Ltac good := unfold wf, aligned, Len, MaxUint64; simpl; lia.
Ltac distinct := repeat (apply NoDup_cons_2; [absent|]); apply NoDup_nil_2.

Lemma calls_keep_keys_distinct_witness :
  let os : list (op Z Z unit) :=
    [OpSet 1 10; OpSet 2 20; OpGet 2; OpSet 3 30; OpRemove 3; OpResize 1] in
  0 < 2 ∧ Forall positive_resize os ∧
  ∃ c, New 2 true ≫= runInt os = Some c ∧
       aligned c ∧ Len c ≤ kcap c ∧ NoDup (keys c) ∧ evicted c = true ∧
       (true = false → notified c = []).
Proof.
  assert (Forall positive_resize
            [OpSet 1 10; OpSet 2 20; OpGet 2; OpSet 3 30; OpRemove 3;
             OpResize 1 : op Z Z unit]) as Hos.
  { repeat (apply Forall_cons_2; [simpl; try done; lia|]). apply Forall_nil_2. }
  split; [lia|]. split; [done|].
  apply (calls_keep_keys_distinct 0 0 growint 2 true); [lia|done].
Defined.

Lemma entries_leave_reported_witness :
  let c := Lru [1; 2] [10; 20] [0; 1] 2 2 true [] in
  let o : op Z Z unit := OpSet 3 30 in
  wf c ∧ NoDup (keys c) ∧ positive_resize o ∧ o ≠ OpReset ∧
  ∃ c' ev, stepInt o c = Some c' ∧ accounted c c' ev.
Proof.
  split; [good|]. split; [distinct|]. split; [done|]. split; [done|].
  apply (entries_leave_reported 0 0 growint); [good|distinct|done|done].
Defined.

Lemma Get_changes_no_entry_witness :
  let c := Lru [1; 2] [10; 20] [0; 1] 2 2 true [] in
  aligned c ∧
  ∃ v c', Get 0 1 c = Some (v, Has 1 c, c') ∧
    entries c' = entries c ∧ kcap c' = kcap c ∧ notified c' = notified c ∧
    (Has 1 c = true ↔ 1 ∈ keys c) ∧
    (Has 1 c = true → (1, v) ∈ entries c) ∧
    (Has 1 c = false → v = 0 ∧ c' = c).
Proof.
  split; [good|]. apply (Get_changes_no_entry 0 1). good.
Defined.

Lemma Set_then_Get_witness :
  let c := Lru [1; 2] [10; 20] [0; 1] 2 2 true [] in
  wf c ∧
  ∃ c1 v c2, Set_ 0 0 growint 3 30 c = Some (negb (Has 3 c), c1) ∧
    Get 0 3 c1 = Some (v, true, c2) ∧
    (Has 3 c = false → v = 30 ∧ Len c1 = Z.min (Len c + 1) (kcap c)) ∧
    (Has 3 c = true → c1 = c ∧ (3, v) ∈ entries c).
Proof.
  split; [good|]. apply (Set_then_Get 0 0 growint 3 30). good.
Defined.

Lemma Replace_then_Get_witness :
  let c := Lru [1; 2] [10; 20] [0; 1] 2 2 true [] in
  wf c ∧
  ∃ c1 c2, Replace 0 0 growint 1 11 c = Some (Has 1 c, c1) ∧
    Get 0 1 c1 = Some (11, true, c2) ∧
    Len c1 = if Has 1 c then Len c else Z.min (Len c + 1) (kcap c).
Proof.
  split; [good|]. apply (Replace_then_Get 0 0 growint 1 11). good.
Defined.

Lemma Replace_present_swaps_value_witness :
  let c := Lru [1; 2] [10; 20] [0; 1] 2 2 true [] in
  aligned c ∧ 2 ∈ keys c ∧
  ∃ i old c', Replace 0 0 growint 2 21 c = Some (true, c') ∧
    entries c !! i = Some (2, old) ∧
    entries c' = <[i:=(2, 21)]> (entries c) ∧
    kcap c' = kcap c ∧ reports c c' [(2, old)].
Proof.
  assert (2 ∈ [1; 2]) as Hin by (apply list_elem_of_further, list_elem_of_here).
  split; [good|]. split; [done|].
  apply (Replace_present_swaps_value 0 0 growint 2 21); [good|done].
Defined.

Lemma Remove_takes_the_key_witness :
  let c := Lru [1; 2; 3] [10; 20; 30] [0; 1; 2] 3 4 true [] in
  aligned c ∧ NoDup (keys c) ∧
  ∃ c' ev, Remove 0 0 1 c = Some (Has 1 c, c') ∧ Has 1 c' = false ∧
    entries c ≡ₚ ev ++ entries c' ∧ reports c c' ev ∧
    ev.*1 = (if Has 1 c then [1] else []) ∧
    (Has 1 c = false → c' = c).
Proof.
  split; [good|]. split; [distinct|].
  apply (Remove_takes_the_key 0 0 1); [good|distinct].
Defined.

Lemma RemoveAll_reports_Reset_is_silent_witness :
  let c := Lru [1; 2] [10; 20] [0; 1] 2 2 true [] in
  aligned c ∧
  ∃ c', RemoveAll c = Some c' ∧ reports c c' (entries c) ∧
    c' = set_notified (notified c') (Reset c) ∧
    reports c (Reset c) [] ∧ entries (Reset c) = [] ∧ tick (Reset c) = 0 ∧
    kcap (Reset c) = kcap c.
Proof.
  split; [good|]. apply RemoveAll_reports_Reset_is_silent. good.
Defined.

Lemma Iterate_yields_the_entries_witness :
  let c := Lru [3; 1; 2] [30; 10; 20] [5; 0; 9] 10 4 false [] in
  aligned c ∧
  Iterate c = Some (entries c) ∧
  (entries c).*1 = keys c ∧ (entries c).*2 = vals c.
Proof.
  split; [good|]. apply Iterate_yields_the_entries. good.
Defined.

Lemma ordered_iterators_stay_in_range_witness :
  let c := Lru [3; 1; 2] [30; 10; 20] [5; 0; 9] 10 4 false [] in
  aligned c ∧
  ∃ la ld, IterateAsc c = Some la ∧ IterateDesc c = Some ld ∧
    (length la ≤ length (keys c))%nat ∧ (length ld ≤ length (keys c))%nat ∧
    ∀ kv, kv ∈ la ++ ld → kv ∈ entries c.
Proof.
  split; [good|]. apply ordered_iterators_stay_in_range. good.
Defined.

Lemma recency_order_of_gentle_calls_witness :
  let os : list (op Z Z unit) :=
    [OpSet 1 10; OpSet 2 20; OpGet 1; OpSet 3 30; OpRemove 1] in
  0 < 2 ∧ Z.of_nat (length os) < MaxUint64 ∧
  gentle_run os (Recency 2 []) ∧
  ∃ c, New 2 true ≫= runInt os = Some c ∧
       ascKeys c = Some (touch_order 2 os) ∧
       descKeys c = Some (reverse (touch_order 2 os)) ∧
       keys c ≡ₚ touch_order 2 os ∧
       Len c ≤ 2 ∧ kcap c = 2.
Proof.
  assert (gentle_run
            [OpSet 1 10; OpSet 2 20; OpGet 1; OpSet 3 30; OpRemove 1
             : op Z Z unit] (Recency 2 [])) as Hg.
  { cbn. split_and!; try done. }
  split; [lia|]. split; [by vm_compute|]. split; [done|].
  apply (recency_order_of_gentle_calls 0 0 growint);
    [lia|by vm_compute|done].
Defined.

Lemma ticks_below_clock_without_Resize_witness :
  let os : list (op Z Z unit) :=
    [OpSet 1 10; OpSet 2 20; OpGet 2; OpReplace 1 11; OpRemove 2] in
  0 < 2 ∧ Forall keeps_capacity os ∧
  2 + Z.of_nat (length os) + 1 < MaxUint64 ∧
  ∃ c, New 2 true ≫= runInt os = Some c ∧ ticks_below_clock c.
Proof.
  assert (Forall keeps_capacity
            [OpSet 1 10; OpSet 2 20; OpGet 2; OpReplace 1 11; OpRemove 2
             : op Z Z unit]) as Hos.
  { repeat (apply Forall_cons_2; [done|]). apply Forall_nil_2. }
  split; [lia|]. split; [done|]. split; [by vm_compute|].
  apply (ticks_below_clock_without_Resize 0 0 growint);
    [lia|done|by vm_compute].
Defined.

Lemma removeOldest_ends_after_one_repair_witness :
  let c := Lru [1; 4; 3; 5] [10; 40; 30; 50] [0; 3; 2; 4] 5 4 true
             [(2, 20)] in
  aligned c ∧ (2 ≤ 7)%nat ∧
  ∃ c', removeOldest_rec 0 0 7 c = Some c' ∧ removeOldest 0 0 c = Some c' ∧
    kcap c' = kcap c ∧
    (length (keys c) = 0%nat → c' = c) ∧
    (length (keys c) ≠ 0%nat →
     ∃ kv, entries c ≡ₚ kv :: entries c' ∧ reports c c' [kv]).
Proof.
  split; [good|]. split; [lia|].
  apply (removeOldest_ends_after_one_repair 0 0); [good|lia].
Defined.

Lemma eviction_fallback_restores_window_witness :
  let c := Lru [1; 4; 3; 5] [10; 40; 30; 50] [0; 3; 2; 4] 5 4 true
             [(2, 20)] in
  let r := [(4, 40); (3, 30); (5, 50)] in
  aligned c ∧ NoDup (keys c) ∧ Len c < MaxUint64 ∧
  entries c = (1, 10) :: r ∧ find (oldestTick c) c = None ∧
  ∃ c', removeOldest 0 0 c = Some c' ∧ reports c c' [(1, 10)] ∧
    ordered c' r ∧ IterateAsc c' = Some r ∧
    IterateDesc c' = Some (reverse r).
Proof.
  split; [good|]. split; [distinct|]. split; [good|].
  split; [done|]. split; [by vm_compute|].
  apply (eviction_fallback_restores_window 0 0);
    [good|distinct|good|done|by vm_compute].
Defined.

Lemma Resize_evicts_oldest_first_witness :
  let c := Lru [1; 2; 3] [10; 20; 30] [4; 5; 6] 7 3 true [] in
  let r := [(1, 10); (2, 20); (3, 30)] in
  ordered c r ∧ 0 ≤ 1 ∧ kcap c ≠ 1 ∧
  ∃ c', Resize 0 0 1 c = Some c' ∧
    reports c c' (take (Z.to_nat (Len c - 1)) r) ∧
    entries c' ≡ₚ drop (Z.to_nat (Len c - 1)) r ∧
    kcap c' = 1.
Proof.
  assert (ordered (Lru [1; 2; 3] [10; 20; 30] [4; 5; 6] 7 3 true [])
            [(1, 10); (2, 20); (3, 30)]) as Ho.
  { unfold ordered. split_and!; [good|distinct|good|good|done]. }
  split; [done|]. split; [lia|]. split; [simpl; lia|].
  apply (Resize_evicts_oldest_first 0 0 1); [done|lia|simpl; lia].
Defined.

Lemma Resize_reports_what_it_drops_witness :
  let c := Lru [3; 1; 2] [30; 10; 20] [5; 0; 9] 10 4 true [] in
  aligned c ∧ 0 ≤ 2 ∧ kcap c ≠ 2 ∧
  ∃ c' ev, Resize 0 0 2 c = Some c' ∧ aligned c' ∧
    Len c' = Z.min (Len c) 2 ∧ kcap c' = 2 ∧ tick c' = 0 ∧
    entries c ≡ₚ ev ++ entries c' ∧ reports c c' ev.
Proof.
  split; [good|]. split; [lia|]. split; [simpl; lia|].
  apply (Resize_reports_what_it_drops 0 0 2); [good|lia|simpl; lia].
Defined.

Lemma Resize_negative_capacity_never_returns_witness :
  let c := Lru [1; 2] [10; 20] [0; 1] 2 2 true [] in
  -1 < 0 ∧
  (∀ n, shrink 0 0 n (-1) c = None) ∧
  (kcap c ≠ -1 → Resize 0 0 (-1) c = None).
Proof.
  split; [lia|]. apply (Resize_negative_capacity_never_returns 0 0). lia.
Defined.

Lemma nextTick_never_wraps_witness :
  let c := Lru [1] [10] [MaxUint64 - 1] MaxUint64 1 true [] in
  0 ≤ tick c ≤ MaxUint64 ∧ Len c < MaxUint64 ∧
  0 ≤ (nextTick c).1 < MaxUint64 ∧
  tick (nextTick c).2 = (nextTick c).1 + 1.
Proof.
  split; [good|]. split; [good|].
  apply nextTick_never_wraps; good.
Defined.

Lemma clock_overflow_shifts_ticks_witness :
  let c := Lru [1; 2] [10; 20] [MaxUint64 - 2; MaxUint64 - 1] MaxUint64 2
             true [] in
  tick c = MaxUint64 ∧ 3 * Len c < MaxUint64 ∧
  Forall (λ x, tick c - Len c ≤ x < tick c) (lastUse c) ∧
  preventTickOverflow c
  = set_tick (Len c) (set_lastUse ((λ x, x - Len c - 1) <$> lastUse c) c) ∧
  Forall (λ x, tick (preventTickOverflow c) ≤ x)
    (lastUse (preventTickOverflow c)).
Proof.
  assert (Forall (λ x, MaxUint64 - 2 ≤ x < MaxUint64)
            [MaxUint64 - 2; MaxUint64 - 1]) as Hw.
  { repeat (apply Forall_cons_2; [good|]). apply Forall_nil_2. }
  split; [done|]. split; [good|]. split; [done|].
  apply clock_overflow_shifts_ticks; [done|good|done].
Defined.

Lemma GetOrSet_present_ignores_producer_witness :
  let c := Lru [1; 2] [10; 20] [0; 1] 2 2 true [] in
  let s1 : Z → Z * option unit := failing_producer in
  let s2 : Z → Z * option unit := λ k, (7 * k, None) in
  aligned c ∧ 1 ∈ keys c ∧
  ∃ v c', Get 0 1 c = Some (v, true, c') ∧
    GetOrSet 0 0 growint 1 s1 c = Some (v, None, c') ∧
    GetOrSet 0 0 growint 1 s2 c = Some (v, None, c').
Proof.
  split; [good|]. split; [apply list_elem_of_here|].
  apply (GetOrSet_present_ignores_producer 0 0 growint);
    [good|apply list_elem_of_here].
Defined.

Lemma GetOrSet_absent_inserts_like_Set_witness :
  let c := Lru [1; 2] [10; 20] [0; 1] 2 2 true [] in
  let setter : Z → Z * option unit := λ k, (10 * k, None) in
  wf c ∧ (3 ∉ keys c) ∧ setter 3 = (30, None) ∧
  ∃ c1 c2, Set_ 0 0 growint 3 30 c = Some (true, c1) ∧
    GetOrSet 0 0 growint 3 setter c = Some (30, None, c1) ∧
    Get 0 3 c1 = Some (30, true, c2).
Proof.
  split; [good|]. split; [absent|]. split; [done|].
  apply (GetOrSet_absent_inserts_like_Set 0 0 growint 3 (λ k, (10 * k, None)));
    [good|absent|done].
Defined.

Lemma zero_capacity_cache_grows_witness :
  let os : list (op Z Z unit) := [OpSet 2 20; OpGet 1; OpSet 3 30] in
  0 < growint 0 1 ∧ Forall positive_resize os ∧
  ∃ c1 c, New 0 true ≫= Set_ 0 0 growint 1 10 = Some (true, c1) ∧
    entries c1 = [(1, 10)] ∧ kcap c1 = growint 0 1 ∧
    runInt os c1 = Some c ∧ aligned c ∧ Len c ≤ kcap c ∧ NoDup (keys c).
Proof.
  assert (Forall positive_resize
            [OpSet 2 20; OpGet 1; OpSet 3 30 : op Z Z unit]) as Hos.
  { repeat (apply Forall_cons_2; [done|]). apply Forall_nil_2. }
  split; [by vm_compute|]. split; [done|].
  apply (zero_capacity_cache_grows 0 0 growint 1 10 true);
    [by vm_compute|done].
Defined.
